(** * Collision Detection.js: quad-tree broad phase and circle narrow phase

    A shallow embedding of [Rectangle], [Circle], [QuadTree] and
    [CollisionEngine] from "Collision Detection.js".

    Numbers.  A JavaScript number is an IEEE 754 binary64 value, modelled
    by the primitive type [float]: every arithmetic operator rounds to the
    nearest double, and [NaN], the two zeros and the infinities behave as
    in the standard.  A property that is absent from an object reads as
    [Undef], which every arithmetic operator and comparison converts to
    [NaN].  Where a property speaks about exact geometry, the doubles are
    read as the rationals they denote ([F2Q]), and the statement says which
    operations are required not to round.

    State.  The methods that mutate a node return the node after the call.
    [insert] recurses into children it may just have created, so its call
    depth is bounded by a fuel argument; with a capacity of at least 1 it
    returns within the depth of the tree plus two ([insert_returns]).

    Callback.  [checkCollisions] is given by the list of calls it makes to
    the hit callback; what the callback does is outside the engine. *)

From Stdlib Require Import Floats.
From Stdlib Require Import ZArith QArith Qabs Qpower List Bool Arith Permutation.
From Stdlib Require Import Reals Qreals Psatz.
Import ListNotations.

Local Open Scope Q_scope.

(* ------------------------------------------------------------------ *)
(** ** JavaScript numbers *)

Inductive num : Type :=
| Undef            (* the property is absent: [undefined] *)
| Num (f : float). (* a double; [NaN] and the infinities included *)

Declare Scope num_scope.
Delimit Scope num_scope with num.
Bind Scope num_scope with num.

(** [ToNumber]: [undefined] becomes [NaN]. *)
Definition to_number (a : num) : float :=
  match a with
  | Undef => PrimFloat.nan
  | Num f => f
  end.

Definition lift2 (f : float -> float -> float) (a b : num) : num :=
  Num (f (to_number a) (to_number b)).

Definition add : num -> num -> num := lift2 PrimFloat.add.
Definition sub : num -> num -> num := lift2 PrimFloat.sub.
Definition mul : num -> num -> num := lift2 PrimFloat.mul.

(** [a / 2] *)
Definition half (a : num) : num := Num (PrimFloat.div (to_number a) 2%float).

(** [Math.abs(a)] *)
Definition abs (a : num) : num := Num (PrimFloat.abs (to_number a)).

(** [Math.sqrt(a)] *)
Definition sqrt (a : num) : num := Num (PrimFloat.sqrt (to_number a)).

(** Comparisons: [NaN] on either side makes them false. *)
Definition num_le (a b : num) : bool := PrimFloat.leb (to_number a) (to_number b).
Definition num_lt (a b : num) : bool := PrimFloat.ltb (to_number a) (to_number b).
Definition num_ge (a b : num) : bool := num_le b a.
Definition num_gt (a b : num) : bool := num_lt b a.

Infix "+" := add : num_scope.
Infix "-" := sub : num_scope.
Infix "*" := mul : num_scope.
Infix "<=?" := num_le (at level 70) : num_scope.
Infix "<?" := num_lt (at level 70) : num_scope.
Infix ">=?" := num_ge (at level 70) : num_scope.
Infix ">?" := num_gt (at level 70) : num_scope.

(** Truthiness of a number: [undefined], [NaN] and the two zeros are falsy. *)
Definition truthy (a : num) : bool :=
  match a with
  | Undef => false
  | Num f => negb (PrimFloat.is_nan f || PrimFloat.is_zero f)
  end.

(** [a || d] *)
Definition or_default (a d : num) : num := if truthy a then a else d.

(* ------------------------------------------------------------------ *)
(** ** Geometric primitives *)

(** [class Circle]; a player or projectile record is read through the same
    three properties, [radius] being [Undef] when the record has none. *)
Record Circle : Type := mkCircle { x : num; y : num; radius : num }.

(** [class Rectangle] *)
Record Rectangle : Type :=
  mkRectangle { rect_x : num; rect_y : num; width : num; height : num }.

Definition contains (this : Rectangle) (circle : Circle) : bool :=
  ((x circle - radius circle >=? rect_x this) &&
   (x circle + radius circle <=? rect_x this + width this) &&
   (y circle - radius circle >=? rect_y this) &&
   (y circle + radius circle <=? rect_y this + height this))%num.

Definition intersects (this : Rectangle) (circle : Circle) : bool :=
  (let xDist := abs (x circle - (rect_x this + half (width this))) in
   let yDist := abs (y circle - (rect_y this + half (height this))) in
   let r := radius circle in
   let w := half (width this) in
   let h := half (height this) in
   if (xDist >? w + r) || (yDist >? h + r) then false
   else if (xDist <=? w) || (yDist <=? h) then true
   else
     let dx := xDist - w in
     let dy := yDist - h in
     dx * dx + dy * dy <=? r * r)%num.

(* ------------------------------------------------------------------ *)
(** ** The quad-tree *)

(** A node either never had children ([Leaf]: the four child properties are
    absent and [divided] is false) or carries four children together with
    its [divided] flag; [clear] resets the flag and keeps the child
    objects, which [subdivide] later replaces. *)
Inductive QuadTree : Type :=
| Leaf (boundary : Rectangle) (capacity : nat) (objects : list Circle)
| Quad (boundary : Rectangle) (capacity : nat) (objects : list Circle)
       (divided : bool)
       (northeast northwest southeast southwest : QuadTree).

Definition boundary (t : QuadTree) : Rectangle :=
  match t with Leaf b _ _ | Quad b _ _ _ _ _ _ _ => b end.
Definition capacity (t : QuadTree) : nat :=
  match t with Leaf _ c _ | Quad _ c _ _ _ _ _ _ => c end.
Definition objects (t : QuadTree) : list Circle :=
  match t with Leaf _ _ o | Quad _ _ o _ _ _ _ _ => o end.
Definition divided (t : QuadTree) : bool :=
  match t with Leaf _ _ _ => false | Quad _ _ _ d _ _ _ _ => d end.

(** [new QuadTree(boundary, capacity)] *)
Definition new_QuadTree (b : Rectangle) (cap : nat) : QuadTree := Leaf b cap [].

(** [this.objects.push(obj)] *)
Definition push (obj : Circle) (t : QuadTree) : QuadTree :=
  match t with
  | Leaf b c o => Leaf b c (o ++ [obj])
  | Quad b c o d ne nw se sw => Quad b c (o ++ [obj]) d ne nw se sw
  end.

Definition subdivide (t : QuadTree) : QuadTree :=
  (let b := boundary t in
   let hw := half (width b) in
   let hh := half (height b) in
   Quad b (capacity t) (objects t) true
     (new_QuadTree (mkRectangle (rect_x b + hw) (rect_y b) hw hh) (capacity t))
     (new_QuadTree (mkRectangle (rect_x b) (rect_y b) hw hh) (capacity t))
     (new_QuadTree (mkRectangle (rect_x b + hw) (rect_y b + hh) hw hh) (capacity t))
     (new_QuadTree (mkRectangle (rect_x b) (rect_y b + hh) hw hh) (capacity t)))%num.

(** [insert].  The recursion of the source is not structural (a child may
    have been created by the call itself), so the call depth is bounded by
    [fuel]; [None] stands for a call that does not return within that
    depth.  The result pairs the returned boolean with the node after the
    call. *)
Fixpoint insert (fuel : nat) (t : QuadTree) (obj : Circle)
  : option (bool * QuadTree) :=
  match fuel with
  | O => None
  | S fuel =>
    if negb (contains (boundary t) obj) then Some (false, t)
    else if (length (objects t) <? capacity t)%nat then Some (true, push obj t)
    else
      match (if negb (divided t) then subdivide t else t) with
      | Leaf _ _ _ => None
      | Quad b c o d ne nw se sw =>
        match insert fuel ne obj with
        | None => None
        | Some (true, ne') => Some (true, Quad b c o d ne' nw se sw)
        | Some (false, ne') =>
          match insert fuel nw obj with
          | None => None
          | Some (true, nw') => Some (true, Quad b c o d ne' nw' se sw)
          | Some (false, nw') =>
            match insert fuel se obj with
            | None => None
            | Some (true, se') => Some (true, Quad b c o d ne' nw' se' sw)
            | Some (false, se') =>
              match insert fuel sw obj with
              | None => None
              | Some (r, sw') => Some (r, Quad b c o d ne' nw' se' sw')
              end
            end
          end
        end
      end
  end.

Fixpoint clear (t : QuadTree) : QuadTree :=
  match t with
  | Leaf b c _ => Leaf b c []
  | Quad b c _ true ne nw se sw =>
      Quad b c [] false (clear ne) (clear nw) (clear se) (clear sw)
  | Quad b c _ false ne nw se sw => Quad b c [] false ne nw se sw
  end.

(** [retrieve(circle, found)]; [found.push] appends at the end. *)
Fixpoint retrieve (t : QuadTree) (circle : Circle) (found : list Circle)
  : list Circle :=
  match t with
  | Leaf b _ o =>
      if negb (intersects b circle) then found else found ++ o
  | Quad b _ o d ne nw se sw =>
      if negb (intersects b circle) then found
      else
        let found := found ++ o in
        if d then
          retrieve sw circle
            (retrieve se circle (retrieve nw circle (retrieve ne circle found)))
        else found
  end.

(* ------------------------------------------------------------------ *)
(** ** The collision engine *)

(** [COLLISION_WORLD_BOUNDS = { x: 0 }], read through the four properties
    the engine asks for. *)
Definition COLLISION_WORLD_BOUNDS : Rectangle :=
  mkRectangle (Num 0) Undef Undef Undef.

Definition QUADTREE_CAPACITY : nat := 4.

(** The static state of [class CollisionEngine]. *)
Record CollisionEngine : Type :=
  mkEngine { USE_QUADTREE : bool; quadTree : QuadTree }.

(** An engine over given world bounds and capacity. *)
Definition engine_with (use : bool) (bounds : Rectangle) (cap : nat)
  : CollisionEngine :=
  mkEngine use
    (new_QuadTree
       (mkRectangle (rect_x bounds) (rect_y bounds) (width bounds) (height bounds))
       cap).

(** The engine as the file declares it. *)
Definition shipped_engine : CollisionEngine :=
  engine_with true COLLISION_WORLD_BOUNDS QUADTREE_CAPACITY.

Record GameState : Type :=
  mkGameState { players : list Circle; projectiles : list Circle }.

(** [new Circle(player.x, player.y, player.radius || 12)] *)
Definition player_circle (player : Circle) : Circle :=
  mkCircle (x player) (y player) (or_default (radius player) (Num 12)).

(** [new Circle(projectile.x, projectile.y, 2)] *)
Definition projectile_circle (projectile : Circle) : Circle :=
  mkCircle (x projectile) (y projectile) (Num 2).

(** [list.forEach(c => tree.insert(c))]: the tree after the calls, with the
    booleans the calls returned (the source discards them). *)
Fixpoint insert_each (fuel : nat) (t : QuadTree) (cs : list Circle)
  : option (list bool * QuadTree) :=
  match cs with
  | [] => Some ([], t)
  | c :: cs =>
    match insert fuel t c with
    | None => None
    | Some (r, t) =>
      match insert_each fuel t cs with
      | None => None
      | Some (rs, t) => Some (r :: rs, t)
      end
    end
  end.

Definition update (fuel : nat) (this : CollisionEngine) (gameState : GameState)
  : option CollisionEngine :=
  if negb (USE_QUADTREE this) then Some this
  else
    let t := clear (quadTree this) in
    match insert_each fuel t (map player_circle (players gameState)) with
    | None => None
    | Some (_, t) =>
      match insert_each fuel t (map projectile_circle (projectiles gameState)) with
      | None => None
      | Some (_, t) => Some (mkEngine (USE_QUADTREE this) t)
      end
    end.

Definition circleCollision (a b : Circle) : bool :=
  (let dx := x a - x b in
   let dy := y a - y b in
   let distance := sqrt (dx * dx + dy * dy) in
   distance <? or_default (radius a) (Num 2) + or_default (radius b) (Num 2))%num.

(** [checkCollisions]: the calls made to [handleProjectileHit], in order,
    each with its two arguments. *)
Definition checkCollisions (this : CollisionEngine) (gameState : GameState)
  : list (Circle * Circle) :=
  if negb (USE_QUADTREE this) then []
  else
    flat_map
      (fun projectile =>
         let candidates :=
           retrieve (quadTree this) (projectile_circle projectile) [] in
         map (fun target => (projectile, target))
             (filter (fun target => circleCollision projectile target) candidates))
      (projectiles gameState).

(* ------------------------------------------------------------------ *)
(** ** The nodes in use and the states of the tree *)

(** The nodes of the tree that are in use: a node and, when its [divided]
    flag is set, the nodes below its four children. *)
Fixpoint nodes (t : QuadTree) : list QuadTree :=
  t :: match t with
       | Quad _ _ _ true ne nw se sw => nodes ne ++ nodes nw ++ nodes se ++ nodes sw
       | _ => []
       end.

(** Every circle stored in the tree, in the order [retrieve] visits. *)
Fixpoint all_objects (t : QuadTree) : list Circle :=
  match t with
  | Leaf _ _ o => o
  | Quad _ _ o true ne nw se sw =>
      o ++ all_objects ne ++ all_objects nw ++ all_objects se ++ all_objects sw
  | Quad _ _ o false _ _ _ _ => o
  end.

(** Number of nested levels of children in use. *)
Fixpoint depth (t : QuadTree) : nat :=
  match t with
  | Quad _ _ _ true ne nw se sw =>
      S (Nat.max (Nat.max (depth ne) (depth nw)) (Nat.max (depth se) (depth sw)))
  | _ => O
  end.

(** States reached from [new QuadTree(b, cap)] by [insert] and [clear]. *)
Inductive reachable (b : Rectangle) (cap : nat) : QuadTree -> Prop :=
| reach_new : reachable b cap (new_QuadTree b cap)
| reach_insert t fuel obj r t' :
    reachable b cap t -> insert fuel t obj = Some (r, t') -> reachable b cap t'
| reach_clear t : reachable b cap t -> reachable b cap (clear t).

(** [inserted b cap log t]: [t] is [new QuadTree(b, cap)] after the inserts
    of [log], in order, each circle paired with what its call returned. *)
Inductive inserted (b : Rectangle) (cap : nat)
  : list (Circle * bool) -> QuadTree -> Prop :=
| inserted_nil : inserted b cap [] (new_QuadTree b cap)
| inserted_snoc log t fuel obj r t' :
    inserted b cap log t -> insert fuel t obj = Some (r, t') ->
    inserted b cap (log ++ [(obj, r)]) t'.

(* ------------------------------------------------------------------ *)
(** ** Doubles read as exact numbers *)

(** The rational a double denotes; [None] for [NaN] and the infinities. *)
Definition SF2Q (s : spec_float) : option Q :=
  match s with
  | S754_zero _ => Some 0
  | S754_finite sg m e =>
      Some (if sg then - (inject_Z (Zpos m) * 2 ^ e) else inject_Z (Zpos m) * 2 ^ e)
  | _ => None
  end.

Definition F2Q (f : float) : option Q := SF2Q (Prim2SF f).

(** The value of a property, in lowest terms. *)
Definition value (a : num) : option Q :=
  match a with
  | Undef => None
  | Num f => option_map Qred (F2Q f)
  end.

(** The number [a] is exactly the rational [q]. *)
Definition exactly (a : num) (q : Q) : bool :=
  match value a with
  | Some p => Qeq_bool p q
  | None => false
  end.

Definition Qlt_bool (p q : Q) : bool := negb (Qle_bool q p).

(** A circle and a rectangle over the rationals. *)
Record QCircle : Type := mkQCircle { qx : Q; qy : Q; qradius : Q }.

Record QRectangle : Type :=
  mkQRectangle { qrect_x : Q; qrect_y : Q; qwidth : Q; qheight : Q }.

Definition circle_value (c : Circle) : option QCircle :=
  match value (x c), value (y c), value (radius c) with
  | Some a, Some b, Some r => Some (mkQCircle a b r)
  | _, _, _ => None
  end.

Definition rectangle_value (b : Rectangle) : option QRectangle :=
  match value (rect_x b), value (rect_y b), value (width b), value (height b) with
  | Some a, Some b, Some w, Some h => Some (mkQRectangle a b w h)
  | _, _, _, _ => None
  end.




(** The centres are strictly closer than the sum of the radii. *)
Definition ideal_collision (a b : QCircle) : bool :=
  Qlt_bool 0 (qradius a + qradius b) &&
  Qlt_bool ((qx a - qx b) * (qx a - qx b) + (qy a - qy b) * (qy a - qy b))
           ((qradius a + qradius b) * (qradius a + qradius b)).


(** [r] is a rectangle of non-negative size inside [b]. *)
Definition ideal_sub_rectangle (r b : QRectangle) : Prop :=
  0 <= qwidth r /\ 0 <= qheight r /\
  qrect_x b <= qrect_x r /\ qrect_x r + qwidth r <= qrect_x b + qwidth b /\
  qrect_y b <= qrect_y r /\ qrect_y r + qheight r <= qrect_y b + qheight b.

(** The distance between the centres, as a real number. *)
Definition centre_distance (a b : QCircle) : R :=
  R_sqrt.sqrt (Q2R ((qx a - qx b) * (qx a - qx b) + (qy a - qy b) * (qy a - qy b))).

(* ------------------------------------------------------------------ *)
(** ** Vocabulary of the properties *)

(** A number that is finite, and one that is also not negative. *)
Definition finite (a : num) : Prop :=
  match value a with
  | Some _ => True
  | None => False
  end.

Definition nonneg (a : num) : Prop :=
  match value a with
  | Some p => 0 <= p
  | None => False
  end.

(** A region of the data model: finite corner, width and height at least 0. *)
Definition proper_rectangle (b : Rectangle) : Prop :=
  finite (rect_x b) /\ finite (rect_y b) /\ nonneg (width b) /\ nonneg (height b).





(** No operation of [subdivide] rounds on this region. *)
Definition subdivide_unrounded (b : Rectangle) : bool :=
  match rectangle_value b with
  | Some R =>
      exactly (half (width b)) (qwidth R / 2) &&
      exactly (half (height b)) (qheight R / 2) &&
      exactly (rect_x b + half (width b)) (qrect_x R + qwidth R / 2) &&
      exactly (rect_y b + half (height b)) (qrect_y R + qheight R / 2)
  | None => false
  end.

(** The circle as [circleCollision] reads it: the radius is [radius || 2]. *)
Definition in_use (c : Circle) : Circle :=
  mkCircle (x c) (y c) (or_default (radius c) (Num 2)).

(** The inputs of the comparison [circleCollision] makes are exact: the
    differences, their squares, the sum of the squares and the sum of the
    radii in use do not round. *)
Definition collision_inputs_exact (a b : Circle) : bool :=
  match circle_value (in_use a), circle_value (in_use b) with
  | Some a', Some b' =>
      let dx := (x a - x b)%num in
      let dy := (y a - y b)%num in
      let qdx := qx a' - qx b' in
      let qdy := qy a' - qy b' in
      exactly dx qdx && exactly dy qdy &&
      exactly (dx * dx) (qdx * qdx) && exactly (dy * dy) (qdy * qdy) &&
      exactly (dx * dx + dy * dy) (qdx * qdx + qdy * qdy) &&
      exactly (radius (in_use a) + radius (in_use b)) (qradius a' + qradius b')
  | _, _ => false
  end.

(** The square root [circleCollision] computes is not exact and rounds to
    the sum of the radii in use itself: the one case in which rounding the
    root changes the strict comparison. *)
Definition root_rounds_to_sum (a b : Circle) : bool :=
  match circle_value (in_use a), circle_value (in_use b) with
  | Some a', Some b' =>
      let dx := (x a - x b)%num in
      let dy := (y a - y b)%num in
      let qdx := qx a' - qx b' in
      let qdy := qy a' - qy b' in
      let sum := qradius a' + qradius b' in
      exactly (sqrt (dx * dx + dy * dy)) sum &&
      negb (Qeq_bool (sum * sum) (qdx * qdx + qdy * qdy))
  | _, _ => false
  end.

(** The inputs of the comparison are exact and the square root, which may
    round, does not round to the sum of the radii. *)
Definition collision_faithful (a b : Circle) : bool :=
  collision_inputs_exact a b && negb (root_rounds_to_sum a b).

(** The centres of the two circles are strictly closer than the sum of the
    radii in use, in exact arithmetic. *)
Definition within_reach (a b : Circle) : bool :=
  match circle_value (in_use a), circle_value (in_use b) with
  | Some a', Some b' => ideal_collision a' b'
  | _, _ => false
  end.




(** The contract of [insert] in the words of its description, over the
    [insert] used for the children: reject when the region does not
    contain the circle; append when the node is a leaf below capacity;
    otherwise subdivide unless subdivided and offer the circle to NE, NW,
    SE, SW in turn, stopping at the first that accepts. *)
Fixpoint first_accepting (child_insert : QuadTree -> option (bool * QuadTree))
  (children : list QuadTree) : option (bool * list QuadTree) :=
  match children with
  | [] => Some (false, [])
  | k :: rest =>
    match child_insert k with
    | None => None
    | Some (true, k') => Some (true, k' :: rest)
    | Some (false, k') =>
      match first_accepting child_insert rest with
      | None => None
      | Some (r, rest') => Some (r, k' :: rest')
      end
    end
  end.

(** The four equal quadrants of a region, in the order NE, NW, SE, SW: each
    has half the width and half the height; the western ones start at the
    left edge and the eastern ones half a width further, the northern ones
    start at the top edge and the southern ones half a height further. *)
Definition quadrants (b : Rectangle) : list Rectangle :=
  (let hw := half (width b) in
   let hh := half (height b) in
   [ mkRectangle (rect_x b + hw) (rect_y b) hw hh;
     mkRectangle (rect_x b) (rect_y b) hw hh;
     mkRectangle (rect_x b + hw) (rect_y b + hh) hw hh;
     mkRectangle (rect_x b) (rect_y b + hh) hw hh ])%num.

(** The node with the circle appended to its own collection. *)
Definition appended (t : QuadTree) (obj : Circle) : QuadTree :=
  match t with
  | Leaf b c o => Leaf b c (o ++ [obj])
  | Quad b c o d ne nw se sw => Quad b c (o ++ [obj]) d ne nw se sw
  end.

(** The children a node offers a circle to: its own four when it is
    subdivided, else four new empty leaves over the four quadrants of its
    region, each with the capacity of the node. *)
Definition children_offered (t : QuadTree) : list QuadTree :=
  match t with
  | Quad _ _ _ true ne nw se sw => [ne; nw; se; sw]
  | _ => map (fun q => Leaf q (capacity t) []) (quadrants (boundary t))
  end.

Definition insert_contract
  (child_insert : QuadTree -> Circle -> option (bool * QuadTree))
  (t : QuadTree) (obj : Circle) : option (bool * QuadTree) :=
  if negb (contains (boundary t) obj) then Some (false, t)
  else if negb (divided t) && (length (objects t) <? capacity t)%nat
  then Some (true, appended t obj)
  else
    match first_accepting (fun k => child_insert k obj) (children_offered t) with
    | Some (r, [ne'; nw'; se'; sw']) =>
        Some (r, Quad (boundary t) (capacity t) (objects t) true ne' nw' se' sw')
    | _ => None
    end.

(** The narrow phase in the words of its description: the default radius
    stands in only for a radius that is absent. *)
Definition radius_or_default (c : Circle) (d : num) : num :=
  match radius c with
  | Undef => d
  | r => r
  end.

Definition circleCollision_described (a b : Circle) : bool :=
  (let dx := x a - x b in
   let dy := y a - y b in
   sqrt (dx * dx + dy * dy)
     <? radius_or_default a (Num 2) + radius_or_default b (Num 2))%num.

(** The circle lies wholly inside one of the four quadrants of [b]. *)
Definition fits_quadrant (b : Rectangle) (c : Circle) : bool :=
  existsb (fun quadrant => contains quadrant c) (quadrants b).

(** Every circle stored at or below a node in use lies inside the node's
    region. *)
Fixpoint stored_inside (t : QuadTree) : Prop :=
  Forall (fun c => contains (boundary t) c = true) (all_objects t) /\
  match t with
  | Quad _ _ _ true ne nw se sw =>
      stored_inside ne /\ stored_inside nw /\ stored_inside se /\ stored_inside sw
  | _ => True
  end.

(** A property [N] of a node's region, capacity and own list of circles,
    read on a node. *)
Definition node_holds (N : Rectangle -> nat -> list Circle -> Prop)
  (n : QuadTree) : Prop :=
  N (boundary n) (capacity n) (objects n).

(** Every node in use has the capacity [cap] and holds at most [cap]
    circles. *)
Definition within_capacity (cap : nat) (t : QuadTree) : Prop :=
  Forall (fun n => capacity n = cap /\ (length (objects n) <= cap)%nat) (nodes t).

(** The region of every node in use denotes a rectangle inside [B]. *)
Definition regions_inside (B : QRectangle) (t : QuadTree) : Prop :=
  Forall (fun n => exists R, rectangle_value (boundary n) = Some R /\
                             ideal_sub_rectangle R B) (nodes t).


(** [offered P ks r ks']: the children [ks] are offered a circle in order,
    each call being described by [P child returned child']; [r] is true as
    soon as one call returns true, and the children after that one are not
    called. *)
Inductive offered (P : QuadTree -> bool -> QuadTree -> Prop)
  : list QuadTree -> bool -> list QuadTree -> Prop :=
| offered_nil : offered P [] false []
| offered_accept k k' rest :
    P k true k' -> offered P (k :: rest) true (k' :: rest)
| offered_next k k' rest r rest' :
    P k false k' -> offered P rest r rest' ->
    offered P (k :: rest) r (k' :: rest').

(** World bounds (0, 0, 1000, 1000). *)
Definition scenario_bounds : Rectangle :=
  mkRectangle (Num 0) (Num 0) (Num 1000) (Num 1000).


(** The node has room for one more circle. *)
Definition has_room (k : QuadTree) : Prop :=
  (length (objects k) < capacity k)%nat.





(* ------------------------------------------------------------------ *)
(** ** Sample data *)

Definition circle (a b r : float) : Circle := mkCircle (Num a) (Num b) (Num r).

Definition sample_bounds : Rectangle :=
  mkRectangle (Num 0) (Num 0) (Num 100) (Num 100).

(** The tree after an insert, or the tree itself should the call not return. *)
Definition after_insert (fuel : nat) (t : QuadTree) (c : Circle) : QuadTree :=
  match insert fuel t c with
  | Some (_, t') => t'
  | None => t
  end.

(** A tree of capacity 1: the first circle stays at the root, the second
    goes to the north-east child, the third sits on both midlines and is
    turned down by all four children. *)
Definition sample_tree1 : QuadTree :=
  Eval vm_compute in after_insert 3 (new_QuadTree sample_bounds 1) (circle 10 10 5).
Definition sample_tree2 : QuadTree :=
  Eval vm_compute in after_insert 3 sample_tree1 (circle 80 20 5).
Definition sample_tree3 : QuadTree :=
  Eval vm_compute in after_insert 3 sample_tree2 (circle 50 50 5).

Definition sample_log : list (Circle * bool) :=
  [(circle 10 10 5, true); (circle 80 20 5, true); (circle 50 50 5, false)].

(** A record with a position and no radius. *)
Definition at_position (a b : float) : Circle := mkCircle (Num a) (Num b) Undef.

Definition sample_state : GameState :=
  mkGameState [at_position 10 10; circle 30 40 5] [at_position 12 11].

(** Five players within a 50 by 50 area inside the north-west quadrant and
    a projectile at the centre of the cluster; the fifth player has radius
    5, the others none. *)
Definition scenario_state : GameState :=
  mkGameState
    [at_position 190 190; at_position 210 190; at_position 190 210;
     at_position 210 210; circle 200 205 5]
    [at_position 200 200].

(** Five players within a 50 by 50 area around the centre (500, 500) of the
    world and a projectile at the centre of the cluster. *)
Definition straddling_state : GameState :=
  mkGameState
    [at_position 480 480; at_position 520 480; at_position 480 520;
     at_position 520 520; at_position 500 500]
    [at_position 500 500].

(* ------------------------------------------------------------------ *)
(** ** Further vocabulary *)

(** The node as the methods can still see it: the children kept by a node
    whose [divided] flag is false are read by no method before [subdivide]
    replaces them. *)
Fixpoint live (t : QuadTree) : QuadTree :=
  match t with
  | Leaf b c o => Leaf b c o
  | Quad b c o true ne nw se sw =>
      Quad b c o true (live ne) (live nw) (live se) (live sw)
  | Quad b c o false _ _ _ _ => Leaf b c o
  end.

(** The children of every subdivided node in use own the four quadrants of
    the node's region, in the order NE, NW, SE, SW. *)
Fixpoint well_divided (t : QuadTree) : Prop :=
  match t with
  | Quad b _ _ true ne nw se sw =>
      map boundary [ne; nw; se; sw] = quadrants b /\
      well_divided ne /\ well_divided nw /\ well_divided se /\ well_divided sw
  | _ => True
  end.

(** The extent of the circle reaches strictly across the vertical or the
    horizontal midline of the region: the sums and differences are the
    rounded ones [contains] and [subdivide] compute. *)
Definition crosses_midline (b : Rectangle) (c : Circle) : bool :=
  (let mx := rect_x b + half (width b) in
   let my := rect_y b + half (height b) in
   ((x c - radius c <? mx) && (mx <? x c + radius c)) ||
   ((y c - radius c <? my) && (my <? y c + radius c)))%num.

(** The property is present and is not [NaN]. *)
Definition is_number (a : num) : Prop :=
  match a with
  | Undef => False
  | Num f => PrimFloat.is_nan f = false
  end.

(** All three properties of the circle are present and are not [NaN]. *)
Definition numeric_circle (c : Circle) : Prop :=
  is_number (x c) /\ is_number (y c) /\ is_number (radius c).


(** The engine over [scenario_bounds] after one [update] with
    [scenario_state]. *)
Definition scenario_engine : CollisionEngine :=
  Eval vm_compute in
    match update 3 (engine_with true scenario_bounds 4) scenario_state with
    | Some this' => this'
    | None => engine_with true scenario_bounds 4
    end.

(** The same engine after a second [update], with [straddling_state]. *)
Definition scenario_engine_next : CollisionEngine :=
  Eval vm_compute in
    match update 3 scenario_engine straddling_state with
    | Some this' => this'
    | None => scenario_engine
    end.

(* ------------------------------------------------------------------ *)
(** ** Data on which rounding shows *)










(** Two circles whose centres are the square root of 2 apart, each of the
    radius 0.7071067811865476: the sum of the radii, 1.4142135623730951,
    is the double just above the square root of 2, to which the root
    rounds. *)
Definition grazing_a : Circle := circle 0 0 0x1.6a09e667f3bcdp-1.

Definition grazing_b : Circle := circle 1 1 0x1.6a09e667f3bcdp-1.

(* ================================================================== *)
(** * Properties *)

(* ------------------------------------------------------------------ *)
(** ** Doubles and the rationals they denote *)

Lemma digits2_pos_bounds m :
  (2 ^ (Zpos (digits2_pos m) - 1) <= Zpos m < 2 ^ Zpos (digits2_pos m))%Z.
Proof.
  induction m as [m IH|m IH|]; cbn [digits2_pos].
  - rewrite Pos2Z.inj_succ.
    replace (Z.succ (Zpos (digits2_pos m)) - 1)%Z with (Zpos (digits2_pos m)) by lia.
    rewrite Z.pow_succ_r by lia.
    replace (Zpos (digits2_pos m)) with (Z.succ (Zpos (digits2_pos m) - 1)) at 1 by lia.
    rewrite Z.pow_succ_r by lia. lia.
  - rewrite Pos2Z.inj_succ.
    replace (Z.succ (Zpos (digits2_pos m)) - 1)%Z with (Zpos (digits2_pos m)) by lia.
    rewrite Z.pow_succ_r by lia.
    replace (Zpos (digits2_pos m)) with (Z.succ (Zpos (digits2_pos m) - 1)) at 1 by lia.
    rewrite Z.pow_succ_r by lia. lia.
  - cbn. lia.
Qed.

Lemma bounded_mantissa m e :
  SpecFloat.bounded prec emax m e = true ->
  (Zpos m < 2 ^ 53)%Z /\ ((-1074 <= e)%Z) /\ ((-1074 < e)%Z -> (2 ^ 52 <= Zpos m)%Z).
Proof.
  unfold SpecFloat.bounded, canonical_mantissa, fexp, SpecFloat.emin, prec, emax.
  intros H. apply andb_true_iff in H. destruct H as [H _].
  apply Z.eqb_eq in H.
  pose proof (digits2_pos_bounds m) as [Hlo Hhi].
  set (d := Zpos (digits2_pos m)) in *.
  assert (Hd : (0 < d)%Z) by (unfold d; lia).
  assert (Hd53 : (d <= 53)%Z) by lia.
  split; [|split].
  - eapply Z.lt_le_trans; [exact Hhi|]. apply Z.pow_le_mono_r; lia.
  - lia.
  - intros He. assert (d = 53)%Z by lia.
    replace (52)%Z with (d - 1)%Z by lia. exact Hlo.
Qed.

Lemma pow2_pos e : 0 < 2 ^ e.
Proof. apply Qpower_0_lt. reflexivity. Qed.

Lemma pow2_split e k : 2 ^ (e + k) == 2 ^ e * 2 ^ k.
Proof. apply Qpower_plus. discriminate. Qed.

Lemma pow2_Z k : (0 <= k)%Z -> 2 ^ k == inject_Z (2 ^ k).
Proof.
  intros Hk. rewrite Zpower_Qpower by exact Hk. reflexivity.
Qed.

Lemma finite_lt_exp m1 e1 m2 e2 :
  SpecFloat.bounded prec emax m1 e1 = true -> SpecFloat.bounded prec emax m2 e2 = true ->
  (e1 < e2)%Z ->
  inject_Z (Zpos m1) * 2 ^ e1 < inject_Z (Zpos m2) * 2 ^ e2.
Proof.
  intros V1 V2 He.
  destruct (bounded_mantissa _ _ V1) as (H1 & L1 & _).
  destruct (bounded_mantissa _ _ V2) as (_ & _ & H2).
  specialize (H2 ltac:(lia)).
  replace e2 with (e1 + (e2 - e1))%Z by lia.
  rewrite pow2_split, (pow2_Z (e2 - e1)) by lia.
  pose proof (pow2_pos e1) as Hp.
  assert (Hz : (Zpos m1 < Zpos m2 * 2 ^ (e2 - e1))%Z).
  { assert (2 ^ 1 <= 2 ^ (e2 - e1))%Z by (apply Z.pow_le_mono_r; lia).
    change (2 ^ 1)%Z with 2%Z in H. change (2 ^ 53)%Z with (2 * 2 ^ 52)%Z in H1. nia. }
  assert (Hq : inject_Z (Zpos m1) < inject_Z (Zpos m2) * inject_Z (2 ^ (e2 - e1))).
  { rewrite <- inject_Z_mult. rewrite <- Zlt_Qlt. exact Hz. }
  nra.
Qed.

Lemma finite_pos m e : 0 < inject_Z (Zpos m) * 2 ^ e.
Proof.
  pose proof (pow2_pos e). set (t := 2 ^ e) in *. clearbody t.
  assert (0 < inject_Z (Zpos m)) by (rewrite <- (Zlt_Qlt 0); lia).
  nra.
Qed.

Lemma same_exp_compare m1 m2 e :
  (inject_Z (Zpos m1) * 2 ^ e ?= inject_Z (Zpos m2) * 2 ^ e) = Pos.compare m1 m2.
Proof.
  pose proof (pow2_pos e) as Hp. set (t := 2 ^ e) in *. clearbody t.
  destruct (Pos.compare_spec m1 m2) as [E|L|G].
  - subst. apply -> Qeq_alt. reflexivity.
  - apply -> Qlt_alt.
    assert (inject_Z (Zpos m1) < inject_Z (Zpos m2)) by (rewrite <- Zlt_Qlt; lia).
    nra.
  - apply -> Qgt_alt.
    assert (inject_Z (Zpos m2) < inject_Z (Zpos m1)) by (rewrite <- Zlt_Qlt; lia).
    nra.
Qed.

Lemma Qcompare_opp p q : (- p ?= - q) = CompOpp (p ?= q).
Proof.
  destruct (p ?= q) eqn:E; cbn [CompOpp].
  - apply <- Qeq_alt in E. apply -> Qeq_alt. lra.
  - apply <- Qlt_alt in E. apply -> Qgt_alt. lra.
  - apply <- Qgt_alt in E. apply -> Qlt_alt. lra.
Qed.

Lemma finite_compare m1 e1 m2 e2 :
  SpecFloat.bounded prec emax m1 e1 = true ->
  SpecFloat.bounded prec emax m2 e2 = true ->
  (inject_Z (Zpos m1) * 2 ^ e1 ?= inject_Z (Zpos m2) * 2 ^ e2) =
  match Z.compare e1 e2 with
  | Lt => Lt
  | Gt => Gt
  | Eq => Pos.compare_cont Eq m1 m2
  end.
Proof.
  intros V1 V2. destruct (Z.compare_spec e1 e2) as [E|L|G].
  - subst. apply same_exp_compare.
  - apply -> Qlt_alt. apply finite_lt_exp; assumption.
  - apply -> Qgt_alt. apply finite_lt_exp; assumption.
Qed.

(** On valid numbers that are not NaN or infinite, [SFcompare] compares the
    values. *)
Lemma SFcompare_value a b p q :
  valid_binary a = true -> valid_binary b = true ->
  SF2Q a = Some p -> SF2Q b = Some q ->
  SFcompare a b = Some (p ?= q).
Proof.
  intros Va Vb Ha Hb.
  destruct a as [sa|sa| |sa ma ea], b as [sb|sb| |sb mb eb];
    cbn in Ha, Hb; try discriminate;
    injection Ha as <-; injection Hb as <-; cbn [SFcompare]; f_equal.
  - pose proof (finite_pos mb eb). destruct sb; symmetry.
    + apply -> Qgt_alt. lra.
    + apply -> Qlt_alt. lra.
  - pose proof (finite_pos ma ea). destruct sa; symmetry.
    + apply -> Qlt_alt. lra.
    + apply -> Qgt_alt. lra.
  - cbn in Va, Vb. pose proof (finite_pos ma ea). pose proof (finite_pos mb eb).
    destruct sa, sb; symmetry.
    + rewrite Qcompare_opp, finite_compare by assumption.
      destruct (Z.compare ea eb); reflexivity.
    + apply -> Qlt_alt. lra.
    + apply -> Qgt_alt. lra.
    + apply finite_compare; assumption.
Qed.

Lemma Qle_bool_compare p q :
  Qle_bool p q = match p ?= q with Gt => false | _ => true end.
Proof.
  destruct (p ?= q) eqn:E.
  - apply <- Qeq_alt in E. apply Qle_bool_iff. lra.
  - apply <- Qlt_alt in E. apply Qle_bool_iff. lra.
  - apply <- Qgt_alt in E. destruct (Qle_bool p q) eqn:L; [|reflexivity].
    apply Qle_bool_iff in L. lra.
Qed.


Lemma ltb_value a b p q :
  F2Q a = Some p -> F2Q b = Some q ->
  PrimFloat.ltb a b = negb (Qle_bool q p).
Proof.
  intros Ha Hb. rewrite FloatAxioms.ltb_spec. unfold SFltb.
  rewrite (SFcompare_value _ _ p q) by (auto using Prim2SF_valid).
  rewrite Qle_bool_compare.
  destruct (p ?= q) eqn:E.
  - apply <- Qeq_alt in E. assert (E' : q == p) by lra. apply -> Qeq_alt in E'.
    rewrite E'. reflexivity.
  - apply <- Qlt_alt in E. assert (E' : p < q) by lra. apply -> Qgt_alt in E'.
    rewrite E'. reflexivity.
  - apply <- Qgt_alt in E. assert (E' : q < p) by lra. apply -> Qlt_alt in E'.
    rewrite E'. reflexivity.
Qed.


(* ------------------------------------------------------------------ *)
(** ** The rounded square root *)

Lemma bounded_digits m e :
  SpecFloat.bounded prec emax m e = true ->
  (1 <= Zpos (digits2_pos m) <= 53)%Z /\ (-1074 <= e <= 971)%Z.
Proof.
  unfold SpecFloat.bounded, canonical_mantissa, fexp, SpecFloat.emin, prec, emax.
  intros H. apply andb_true_iff in H. destruct H as [H1 H2].
  apply Z.eqb_eq in H1. apply Z.leb_le in H2. lia.
Qed.

Lemma digits_53 p : (2 ^ 52 <= Zpos p < 2 ^ 53)%Z -> digits2_pos p = 53%positive.
Proof.
  intros [Hlo Hhi]. pose proof (digits2_pos_bounds p) as [Dlo Dhi].
  set (d := Zpos (digits2_pos p)) in *.
  assert (Hd : (d = 53)%Z).
  { destruct (Z.lt_trichotomy d 53) as [H|[H|H]]; [|exact H|].
    - exfalso. assert (2 ^ d <= 2 ^ 52)%Z by (apply Z.pow_le_mono_r; lia). lia.
    - exfalso. assert (2 ^ 53 <= 2 ^ (d - 1))%Z by (apply Z.pow_le_mono_r; lia). lia. }
  unfold d in Hd. injection Hd as ->. reflexivity.
Qed.

(** The integer square root the specification of [sqrt] computes. *)
Lemma sqrt_core m e :
  SpecFloat.bounded prec emax m e = true ->
  exists q e' l,
    SFsqrt_core_binary prec emax (Zpos m) e = (q, e', l) /\
    (2 ^ 52 <= q < 2 ^ 53)%Z /\ (-1074 <= e' <= 459)%Z /\
    (0 <= e - 2 * e')%Z /\
    (q * q <= Zpos m * 2 ^ (e - 2 * e') < (q + 1) * (q + 1))%Z.
Proof.
  intros Hb. destruct (bounded_digits _ _ Hb) as [Hd He].
  pose proof (digits2_pos_bounds m) as [Dlo Dhi].
  unfold SFsqrt_core_binary. cbn [Zdigits2].
  set (d := Zpos (digits2_pos m)) in *.
  set (h := Z.div2 (d + e + 1)).
  assert (Hh : (2 * h <= d + e + 1 <= 2 * h + 1)%Z).
  { unfold h. rewrite Z.div2_div.
    pose proof (Z.div_mod (d + e + 1) 2 ltac:(lia)).
    pose proof (Z.mod_pos_bound (d + e + 1) 2 ltac:(lia)). lia. }
  assert (He2 : (2 * Z.div2 e <= e <= 2 * Z.div2 e + 1)%Z).
  { rewrite Z.div2_div.
    pose proof (Z.div_mod e 2 ltac:(lia)).
    pose proof (Z.mod_pos_bound e 2 ltac:(lia)). lia. }
  assert (Hfexp : fexp prec emax h = (h - 53)%Z).
  { unfold fexp, SpecFloat.emin, prec, emax. lia. }
  rewrite Hfexp.
  assert (Hmin : Z.min (h - 53) (Z.div2 e) = (h - 53)%Z) by lia.
  rewrite Hmin.
  set (e' := (h - 53)%Z).
  remember (e - 2 * e')%Z as s eqn:Es.
  assert (Hs : (52 <= s)%Z) by (subst s; unfold e'; lia).
  assert (Hshift : match s with
                   | Zpos _ => Z.shiftl (Zpos m) s
                   | Z0 => Zpos m
                   | Zneg _ => Z0
                   end = (Zpos m * 2 ^ s)%Z).
  { destruct s; try lia. apply Z.shiftl_mul_pow2. lia. }
  rewrite Hshift.
  set (m' := (Zpos m * 2 ^ s)%Z).
  pose proof (Z.sqrtrem_spec m') as Hspec.
  assert (Hm'0 : (0 <= m')%Z) by (unfold m'; apply Z.mul_nonneg_nonneg; [lia|apply Z.pow_nonneg; lia]).
  specialize (Hspec Hm'0).
  destruct (Z.sqrtrem m') as [q r]. destruct Hspec as [Hm' Hr].
  assert (Hbounds : (2 ^ 104 <= m' < 2 ^ 106)%Z).
  { assert (Hds : (d + s = 105 \/ d + s = 106)%Z) by (subst s; unfold e'; lia).
    assert (Hp : (2 ^ (d - 1) * 2 ^ s = 2 ^ (d + s - 1))%Z).
    { rewrite <- Z.pow_add_r by lia. f_equal. lia. }
    assert (Hp' : (2 ^ d * 2 ^ s = 2 ^ (d + s))%Z).
    { rewrite <- Z.pow_add_r by lia. reflexivity. }
    assert (H2s : (0 < 2 ^ s)%Z) by (apply Z.pow_pos_nonneg; lia).
    unfold m'. split.
    - apply Z.le_trans with (2 ^ (d + s - 1))%Z.
      + apply Z.pow_le_mono_r; lia.
      + rewrite <- Hp. apply Z.mul_le_mono_nonneg_r; lia.
    - apply Z.lt_le_trans with (2 ^ (d + s))%Z.
      + rewrite <- Hp'. apply Z.mul_lt_mono_pos_r; lia.
      + apply Z.pow_le_mono_r; lia. }
  exists q, e'.
  eexists. split; [reflexivity|].
  assert (Hq : (2 ^ 52 <= q < 2 ^ 53)%Z).
  { change (2 ^ 104)%Z with (2 ^ 52 * 2 ^ 52)%Z in Hbounds.
    change (2 ^ 106)%Z with (2 ^ 53 * 2 ^ 53)%Z in Hbounds.
    set (a := (2 ^ 52)%Z) in *. set (b := (2 ^ 53)%Z) in *.
    assert (0 < a)%Z by (unfold a; lia). assert (0 < b)%Z by (unfold b; lia).
    clearbody a b. split.
    - destruct (Z_lt_le_dec q a); [exfalso; nia|assumption].
    - destruct (Z_lt_le_dec q b); [assumption|exfalso; nia]. }
  split; [exact Hq|]. split; [unfold e'; lia|]. split; [lia|].
  rewrite <- Es. fold m'. clearbody m'. clear Hbounds Hq. nia.
Qed.

Lemma round_final (q1 e' : Z) :
  (2 ^ 52 <= q1 <= 2 ^ 53)%Z -> (-1074 <= e' <= 459)%Z ->
  exists rho,
    SF2Q (let '(mrs, e'') := shr_fexp prec emax q1 e' loc_Exact in
          match shr_m mrs with
          | Z0 => S754_zero false
          | Zpos m => if Z.leb e'' (emax - prec) then S754_finite false m e''
                      else S754_infinity false
          | _ => S754_nan
          end) = Some rho /\
    rho == inject_Z q1 * 2 ^ e'.
Proof.
  intros Hq He. unfold shr_fexp.
  destruct (Z.eq_dec q1 (2 ^ 53)) as [->|Hne].
  - change (2 ^ 53)%Z with 9007199254740992%Z.
    cbn [Zdigits2 digits2_pos Pos.succ].
    replace (fexp prec emax (54 + e') - e')%Z with 1%Z
      by (unfold fexp, SpecFloat.emin, prec, emax; lia).
    cbn [shr shr_record_of_loc iter_pos shr_1 shr_m].
    assert (Hle : Z.leb (e' + 1) (emax - prec) = true)
      by (apply Z.leb_le; unfold emax, prec; lia).
    rewrite Hle. cbn [SF2Q]. eexists. split; [reflexivity|].
    rewrite pow2_split. change (2 ^ 1) with 2.
    change (inject_Z 4503599627370496) with (4503599627370496 # 1).
    change (inject_Z 9007199254740992) with (9007199254740992 # 1).
    set (t := 2 ^ e'). clearbody t. field.
  - destruct q1 as [|p|p]; try lia.
    assert (Hp : (2 ^ 52 <= Zpos p < 2 ^ 53)%Z) by lia.
    cbn [Zdigits2]. rewrite (digits_53 _ Hp).
    replace (fexp prec emax (53 + e') - e')%Z with 0%Z
      by (unfold fexp, SpecFloat.emin, prec, emax; lia).
    cbn [shr shr_record_of_loc shr_m].
    assert (Hle : Z.leb e' (emax - prec) = true)
      by (apply Z.leb_le; unfold emax, prec; lia).
    rewrite Hle. cbn [SF2Q]. eexists. split; reflexivity.
Qed.

Lemma round_sqrt (q e' : Z) l :
  (2 ^ 52 <= q < 2 ^ 53)%Z -> (-1074 <= e' <= 459)%Z ->
  exists rho,
    SF2Q (binary_round_aux prec emax false q e' l) = Some rho /\
    (rho == inject_Z q * 2 ^ e' \/ rho == inject_Z (q + 1) * 2 ^ e').
Proof.
  intros Hq He. unfold binary_round_aux. unfold shr_fexp at 1.
  destruct q as [|p|p]; try lia.
  cbn [Zdigits2]. rewrite (digits_53 _ Hq).
  replace (fexp prec emax (53 + e') - e')%Z with 0%Z
    by (unfold fexp, SpecFloat.emin, prec, emax; lia).
  cbn [shr].
  assert (Hround : forall l0,
            round_nearest_even (shr_m (shr_record_of_loc (Zpos p) l0))
              (loc_of_shr_record (shr_record_of_loc (Zpos p) l0)) = Zpos p \/
            round_nearest_even (shr_m (shr_record_of_loc (Zpos p) l0))
              (loc_of_shr_record (shr_record_of_loc (Zpos p) l0)) = (Zpos p + 1)%Z).
  { intros [|[| |]]; cbn [shr_record_of_loc shr_m loc_of_shr_record round_nearest_even];
      auto. destruct (Z.even (Zpos p)); auto. }
  destruct (Hround l) as [-> | ->].
  - destruct (round_final (Zpos p) e' ltac:(lia) He) as (rho & H1 & H2).
    exists rho. split; [exact H1|left; exact H2].
  - destruct (round_final (Zpos p + 1) e' ltac:(lia) He) as (rho & H1 & H2).
    exists rho. split; [exact H1|right; exact H2].
Qed.

(** The rounded square root of a positive double lies on the grid of the
    53-bit numbers around the exact root. *)
Lemma SFsqrt_bracket m e :
  SpecFloat.bounded prec emax m e = true ->
  exists (q e' : Z) rho,
    SF2Q (SF64sqrt (S754_finite false m e)) = Some rho /\
    (2 ^ 52 <= q < 2 ^ 53)%Z /\
    (rho == inject_Z q * 2 ^ e' \/ rho == inject_Z (q + 1) * 2 ^ e') /\
    (inject_Z q * 2 ^ e') * (inject_Z q * 2 ^ e') <= inject_Z (Zpos m) * 2 ^ e /\
    inject_Z (Zpos m) * 2 ^ e <
      (inject_Z (q + 1) * 2 ^ e') * (inject_Z (q + 1) * 2 ^ e').
Proof.
  intros Hb.
  destruct (sqrt_core _ _ Hb) as (q & e' & l & Hcore & Hq & He' & Hs & Hsq).
  unfold SF64sqrt, SFsqrt. rewrite Hcore.
  destruct (round_sqrt q e' l Hq He') as (rho & Hrho & Hcases).
  exists q, e', rho. split; [exact Hrho|]. split; [exact Hq|].
  split; [exact Hcases|].
  assert (Hx : inject_Z (Zpos m) * 2 ^ e ==
               inject_Z (Zpos m * 2 ^ (e - 2 * e')) * (2 ^ e' * 2 ^ e')).
  { rewrite inject_Z_mult, <- (pow2_Z (e - 2 * e')) by exact Hs.
    rewrite <- !pow2_split, <- Qmult_assoc, <- pow2_split.
    replace (e - 2 * e' + (e' + e'))%Z with e by lia. reflexivity. }
  rewrite Hx.
  set (M := (Zpos m * 2 ^ (e - 2 * e'))%Z) in *. clearbody M.
  pose proof (pow2_pos e') as Ht. set (t := 2 ^ e') in *. clearbody t.
  destruct Hsq as [Hlo Hhi].
  assert (Hlo' : inject_Z q * inject_Z q <= inject_Z M).
  { rewrite <- inject_Z_mult. rewrite <- Zle_Qle. exact Hlo. }
  assert (Hhi' : inject_Z M < inject_Z (q + 1) * inject_Z (q + 1)).
  { rewrite <- inject_Z_mult. rewrite <- Zlt_Qlt. exact Hhi. }
  set (a := inject_Z q) in *. set (b := inject_Z (q + 1)) in *.
  set (c := inject_Z M) in *. clearbody a b c.
  assert (0 < t * t) by nra.
  split; nra.
Qed.

(** No double lies strictly between two neighbours of the 53-bit grid. *)
Lemma grid_gap mt et (q e' : Z) :
  SpecFloat.bounded prec emax mt et = true ->
  (2 ^ 52 <= q < 2 ^ 53)%Z ->
  inject_Z q * 2 ^ e' < inject_Z (Zpos mt) * 2 ^ et ->
  inject_Z (q + 1) * 2 ^ e' <= inject_Z (Zpos mt) * 2 ^ et.
Proof.
  intros Hb Hq Hlt.
  destruct (bounded_mantissa _ _ Hb) as (Hm & _ & _).
  destruct (Z_lt_le_dec et e') as [Hlow|Hhigh].
  - exfalso.
    assert (Hsplit : 2 ^ e' == inject_Z (2 ^ (e' - et)) * 2 ^ et).
    { rewrite <- pow2_Z by lia. rewrite <- pow2_split.
      replace (e' - et + et)%Z with e' by lia. reflexivity. }
    rewrite Hsplit in Hlt.
    assert (Hk : (2 <= 2 ^ (e' - et))%Z).
    { change 2%Z with (2 ^ 1)%Z at 1. apply Z.pow_le_mono_r; lia. }
    assert (Hz : (Zpos mt < q * 2 ^ (e' - et))%Z).
    { change (2 ^ 53)%Z with (2 ^ 52 * 2)%Z in Hm.
      set (k0 := (2 ^ (e' - et))%Z) in *. set (a0 := (2 ^ 52)%Z) in *.
      assert (0 < a0)%Z by (unfold a0; lia). clearbody k0 a0. nia. }
    rewrite Zlt_Qlt, inject_Z_mult in Hz.
    pose proof (pow2_pos et) as Ht. set (t := 2 ^ et) in *. clearbody t.
    set (a := inject_Z q) in *. set (k := inject_Z (2 ^ (e' - et))) in *.
    set (b := inject_Z (Zpos mt)) in *. clearbody a k b. nra.
  - assert (Hsplit : 2 ^ et == inject_Z (2 ^ (et - e')) * 2 ^ e').
    { rewrite <- pow2_Z by lia. rewrite <- pow2_split.
      replace (et - e' + e')%Z with et by lia. reflexivity. }
    rewrite Hsplit in Hlt. rewrite Hsplit.
    pose proof (pow2_pos e') as Ht. set (t := 2 ^ e') in *. clearbody t.
    assert (Hz : (q < Zpos mt * 2 ^ (et - e'))%Z).
    { rewrite Zlt_Qlt, inject_Z_mult.
      set (a := inject_Z q) in *. set (k := inject_Z (2 ^ (et - e'))) in *.
      set (b := inject_Z (Zpos mt)) in *. clearbody a k b. nra. }
    assert (Hz' : (q + 1 <= Zpos mt * 2 ^ (et - e'))%Z) by lia.
    rewrite Zle_Qle, inject_Z_mult in Hz'.
    set (a := inject_Z (q + 1)) in *. set (k := inject_Z (2 ^ (et - e'))) in *.
    set (b := inject_Z (Zpos mt)) in *. clearbody a k b. nra.
Qed.

(** The rounded square root of an exact non-negative number compares with
    a double as the exact root does, short of being equal to it. *)
Lemma sqrt_compare s t sigma tau :
  F2Q s = Some sigma -> F2Q t = Some tau -> 0 <= sigma ->
  exists rho,
    F2Q (PrimFloat.sqrt s) = Some rho /\ 0 <= rho /\
    (rho < tau -> sigma < tau * tau) /\
    (0 < tau -> sigma < tau * tau -> rho <= tau).
Proof.
  unfold F2Q. rewrite FloatAxioms.sqrt_spec.
  pose proof (Prim2SF_valid s) as Vs. pose proof (Prim2SF_valid t) as Vt.
  destruct (Prim2SF s) as [ss|ss| |ss m e]; cbn [SF2Q]; try discriminate.
  - intros Hs Ht _. injection Hs as <-. exists 0.
    split; [destruct ss; reflexivity|]. split; [lra|]. split; intros; nra.
  - destruct ss.
    { intros Hs _ H0. injection Hs as <-. exfalso.
      pose proof (finite_pos m e). lra. }
    intros Hs Ht _. injection Hs as <-.
    cbn [valid_binary] in Vs.
    destruct (SFsqrt_bracket m e Vs)
      as (q & e' & rho & Hrho & Hq & Hcases & Hlo & Hhi).
    exists rho. split; [exact Hrho|].
    pose proof (pow2_pos e') as Hpe.
    assert (Hq0 : 0 < inject_Z q * 2 ^ e').
    { assert (0 < inject_Z q) by (change 0 with (inject_Z 0); rewrite <- Zlt_Qlt; lia).
      nra. }
    assert (Hq1 : inject_Z q * 2 ^ e' < inject_Z (q + 1) * 2 ^ e').
    { assert (inject_Z q < inject_Z (q + 1)) by (rewrite <- Zlt_Qlt; lia). nra. }
    set (Q0 := inject_Z q * 2 ^ e') in *. set (Q1 := inject_Z (q + 1) * 2 ^ e') in *.
    set (x := inject_Z (Zpos m) * 2 ^ e) in *.
    assert (Hgrid : Q0 < tau -> Q1 <= tau).
    { destruct (Prim2SF t) as [st|st| |st mt et]; cbn [SF2Q] in Ht; try discriminate.
      - injection Ht as <-. intros. lra.
      - injection Ht as <-. destruct st.
        + pose proof (finite_pos mt et). intros. lra.
        + cbn [valid_binary] in Vt. apply grid_gap; assumption. }
    clearbody Q0 Q1 x. clear Hrho Ht.
    split; [destruct Hcases; lra|]. split.
    + intros Hlt. assert (Q1 <= tau) by (apply Hgrid; destruct Hcases; lra). nra.
    + intros Htau Hsig. assert (Q0 < tau) by nra.
      specialize (Hgrid H). destruct Hcases; lra.
Qed.

(* ------------------------------------------------------------------ *)
(** ** [NaN] *)

Lemma is_nan_eq f : PrimFloat.is_nan f = true -> f = PrimFloat.nan.
Proof.
  unfold PrimFloat.is_nan. rewrite FloatAxioms.eqb_spec. unfold SFeqb. intros H.
  apply Prim2SF_inj. change (Prim2SF nan) with S754_nan.
  destruct (Prim2SF f) as [s|s| |s m e] eqn:E; cbn in H; try reflexivity.
  - discriminate.
  - destruct s; discriminate.
  - rewrite Z.compare_refl, Pos.compare_cont_refl in H. destruct s; discriminate.
Qed.

Lemma leb_nan_r x : PrimFloat.leb x PrimFloat.nan = false.
Proof.
  rewrite FloatAxioms.leb_spec. change (Prim2SF nan) with S754_nan.
  destruct (Prim2SF x); reflexivity.
Qed.
Lemma leb_nan_l x : PrimFloat.leb PrimFloat.nan x = false.
Proof. rewrite FloatAxioms.leb_spec. reflexivity. Qed.
Lemma ltb_nan_l x : PrimFloat.ltb PrimFloat.nan x = false.
Proof. rewrite FloatAxioms.ltb_spec. reflexivity. Qed.

Lemma add_nan_r x : PrimFloat.add x PrimFloat.nan = PrimFloat.nan.
Proof.
  apply Prim2SF_inj. rewrite FloatAxioms.add_spec. change (Prim2SF nan) with S754_nan.
  destruct (Prim2SF x); reflexivity.
Qed.
Lemma add_nan_l x : PrimFloat.add PrimFloat.nan x = PrimFloat.nan.
Proof. apply Prim2SF_inj. rewrite FloatAxioms.add_spec. reflexivity. Qed.
Lemma sub_nan_r x : PrimFloat.sub x PrimFloat.nan = PrimFloat.nan.
Proof.
  apply Prim2SF_inj. rewrite FloatAxioms.sub_spec. change (Prim2SF nan) with S754_nan.
  destruct (Prim2SF x); reflexivity.
Qed.
Lemma sub_nan_l x : PrimFloat.sub PrimFloat.nan x = PrimFloat.nan.
Proof. apply Prim2SF_inj. rewrite FloatAxioms.sub_spec. reflexivity. Qed.
Lemma mul_nan_l x : PrimFloat.mul PrimFloat.nan x = PrimFloat.nan.
Proof. apply Prim2SF_inj. rewrite FloatAxioms.mul_spec. reflexivity. Qed.

(* ------------------------------------------------------------------ *)
(** ** Symmetries of the rounded operations *)

Lemma SFadd_comm a b : SF64add a b = SF64add b a.
Proof.
  unfold SF64add.
  destruct a as [sa|sa| |sa ma ea], b as [sb|sb| |sb mb eb]; cbn [SFadd];
    try reflexivity; try (destruct sa, sb; reflexivity).
  rewrite Z.min_comm, Z.add_comm. reflexivity.
Qed.

Lemma float_add_comm x y : PrimFloat.add x y = PrimFloat.add y x.
Proof.
  apply Prim2SF_inj. rewrite !FloatAxioms.add_spec. apply SFadd_comm.
Qed.

Lemma SFabs_round_aux s m e l :
  SFabs (binary_round_aux prec emax s m e l) =
  SFabs (binary_round_aux prec emax false m e l).
Proof.
  unfold binary_round_aux.
  destruct (shr_fexp prec emax m e l) as [mrs' e'].
  destruct (shr_fexp prec emax _ e' loc_Exact) as [mrs'' e''].
  destruct (shr_m mrs''); try reflexivity.
  destruct (Z.leb e'' (emax - prec)); reflexivity.
Qed.

Lemma SFabs_normalize_opp z e :
  SFabs (binary_normalize prec emax (- z) e false) =
  SFabs (binary_normalize prec emax z e false).
Proof.
  destruct z as [|p|p]; cbn [Z.opp binary_normalize]; try reflexivity;
    unfold binary_round;
    destruct (shl_align p e _) as [mz ez];
    rewrite (SFabs_round_aux true); reflexivity.
Qed.

Lemma SFabs_sub_sym a b : SFabs (SF64sub a b) = SFabs (SF64sub b a).
Proof.
  unfold SF64sub.
  destruct a as [sa|sa| |sa ma ea], b as [sb|sb| |sb mb eb]; cbn [SFsub SFabs];
    try reflexivity; try (destruct sa, sb; reflexivity).
  rewrite (Z.min_comm eb ea).
  rewrite <- SFabs_normalize_opp. f_equal. f_equal. lia.
Qed.

Lemma SFmul_self_abs a : SF64mul a a = SF64mul (SFabs a) (SFabs a).
Proof.
  unfold SF64mul. destruct a as [s|s| |s m e]; cbn [SFmul SFabs];
    try reflexivity; destruct s; reflexivity.
Qed.

Lemma square_sub_sym x y :
  PrimFloat.mul (PrimFloat.sub x y) (PrimFloat.sub x y) =
  PrimFloat.mul (PrimFloat.sub y x) (PrimFloat.sub y x).
Proof.
  apply Prim2SF_inj. rewrite !FloatAxioms.mul_spec, !FloatAxioms.sub_spec.
  rewrite SFmul_self_abs, (SFmul_self_abs (SF64sub (Prim2SF y) (Prim2SF x))).
  rewrite (SFabs_sub_sym (Prim2SF x)). reflexivity.
Qed.

Lemma SFcompare_antisym a b :
  SFcompare b a = option_map CompOpp (SFcompare a b).
Proof.
  destruct a as [sa|sa| |sa ma ea], b as [sb|sb| |sb mb eb]; cbn [SFcompare option_map];
    try reflexivity; try (destruct sa, sb; reflexivity);
    try (destruct sa; reflexivity); try (destruct sb; reflexivity).
  rewrite (Z.compare_antisym ea eb).
  change (Pos.compare_cont Eq mb ma) with (Pos.compare_cont (CompOpp Eq) mb ma).
  rewrite <- (Pos.compare_cont_antisym ma mb Eq).
  destruct sa, sb; cbn [CompOpp]; try reflexivity;
    destruct (Z.compare ea eb); cbn [CompOpp]; try reflexivity;
    destruct (Pos.compare_cont Eq ma mb); reflexivity.
Qed.

Lemma ltb_not_leb a b : PrimFloat.ltb a b = true -> PrimFloat.leb b a = false.
Proof.
  rewrite FloatAxioms.ltb_spec, FloatAxioms.leb_spec. unfold SFltb, SFleb.
  rewrite (SFcompare_antisym (Prim2SF a) (Prim2SF b)).
  destruct (SFcompare (Prim2SF a) (Prim2SF b)) as [[| |]|]; cbn; congruence.
Qed.
(* ------------------------------------------------------------------ *)
(** ** Comparisons on rationals *)

Lemma Qle_bool_false p q : Qle_bool p q = false -> q < p.
Proof.
  intros H. apply Qnot_le_lt. intros Hle.
  apply Qle_bool_iff in Hle. congruence.
Qed.

Lemma Qlt_bool_iff p q : Qlt_bool p q = true <-> p < q.
Proof.
  unfold Qlt_bool. rewrite negb_true_iff. split.
  - apply Qle_bool_false.
  - intros H. destruct (Qle_bool q p) eqn:E; [|reflexivity].
    apply Qle_bool_iff in E. lra.
Qed.



(** Replace [p / 2] by [p * (1 # 2)] so that linear arithmetic applies. *)
Ltac halves := unfold Qdiv in *; change (/ 2) with (1 # 2) in *.

(* ------------------------------------------------------------------ *)
(** ** The two tests of [Rectangle] in exact arithmetic *)




Lemma square_nonneg (u : Q) : 0 <= u * u.
Proof. nra. Qed.





Lemma ideal_sub_rectangle_refl B :
  0 <= qwidth B -> 0 <= qheight B -> ideal_sub_rectangle B B.
Proof.
  intros Hw Hh. unfold ideal_sub_rectangle. repeat split; lra.
Qed.

(* ------------------------------------------------------------------ *)
(** ** When no operation rounds, the code computes the exact tests *)

Lemma exactly_inv a q :
  exactly a q = true ->
  exists f p, a = Num f /\ F2Q f = Some p /\ p == q.
Proof.
  unfold exactly, value. destruct a as [|f]; [discriminate|].
  destruct (F2Q f) as [p|] eqn:E; [|discriminate].
  cbn [option_map]. intros H. apply Qeq_bool_iff in H.
  rewrite Qred_correct in H.
  exists f, p. split; [reflexivity|split; [exact E|exact H]].
Qed.






Lemma rectangle_value_inv b b' :
  rectangle_value b = Some b' ->
  value (rect_x b) = Some (qrect_x b') /\ value (rect_y b) = Some (qrect_y b') /\
  value (width b) = Some (qwidth b') /\ value (height b) = Some (qheight b').
Proof.
  unfold rectangle_value.
  destruct (value (rect_x b)), (value (rect_y b)), (value (width b)),
    (value (height b)); try discriminate.
  intros H. injection H as <-. auto.
Qed.

(** Split a conjunction of boolean facts among the hypotheses. *)
Ltac split_andb :=
  repeat match goal with
  | H : _ && _ = true |- _ => apply andb_true_iff in H; destruct H
  end.



(* ------------------------------------------------------------------ *)
(** ** Containment and intersection *)






(* ------------------------------------------------------------------ *)
(** ** Reasoning about [insert] *)

(** Induction over the calls of one [insert]: reject, append, or offer to
    the four children. *)
Lemma insert_induction (c : Circle) (P : QuadTree -> bool -> QuadTree -> Prop) :
  (forall t, contains (boundary t) c = false -> P t false t) ->
  (forall t, contains (boundary t) c = true ->
             (length (objects t) < capacity t)%nat -> P t true (push c t)) ->
  (forall t b cap o ne nw se sw r ne' nw' se' sw',
      contains (boundary t) c = true ->
      (capacity t <= length (objects t))%nat ->
      (if negb (divided t) then subdivide t else t) = Quad b cap o true ne nw se sw ->
      offered P [ne; nw; se; sw] r [ne'; nw'; se'; sw'] ->
      P t r (Quad b cap o true ne' nw' se' sw')) ->
  forall fuel t r t', insert fuel t c = Some (r, t') -> P t r t'.
Proof.
  intros Hrej Hpush Hkids.
  induction fuel as [|fuel IH]; intros t r t' H; [discriminate|].
  cbn [insert] in H.
  destruct (contains (boundary t) c) eqn:Hc; cbn [negb] in H.
  2:{ injection H as <- <-. apply Hrej, Hc. }
  destruct (length (objects t) <? capacity t)%nat eqn:Hlen.
  { injection H as <- <-. apply Hpush; [exact Hc|]. apply Nat.ltb_lt, Hlen. }
  apply Nat.ltb_ge in Hlen.
  destruct (if negb (divided t) then subdivide t else t)
    as [|b cap o d ne nw se sw] eqn:Hsub; [discriminate|].
  assert (d = true) as ->.
  { destruct t as [|? ? ? [|] ? ? ? ?]; unfold subdivide in Hsub;
      cbn in Hsub; congruence. }
  destruct (insert fuel ne c) as [[[|] ne']|] eqn:E1; [| |discriminate].
  { injection H as <- <-. eapply Hkids; eauto.
    apply offered_accept. apply IH, E1. }
  destruct (insert fuel nw c) as [[[|] nw']|] eqn:E2; [| |discriminate].
  { injection H as <- <-. eapply Hkids; eauto.
    apply offered_next; [apply IH, E1|]. apply offered_accept. apply IH, E2. }
  destruct (insert fuel se c) as [[[|] se']|] eqn:E3; [| |discriminate].
  { injection H as <- <-. eapply Hkids; eauto.
    apply offered_next; [apply IH, E1|].
    apply offered_next; [apply IH, E2|]. apply offered_accept. apply IH, E3. }
  destruct (insert fuel sw c) as [[r4 sw']|] eqn:E4; [|discriminate].
  injection H as <- <-. eapply Hkids; eauto.
  apply offered_next; [apply IH, E1|].
  apply offered_next; [apply IH, E2|].
  apply offered_next; [apply IH, E3|].
  destruct r4.
  - apply offered_accept. apply IH, E4.
  - apply offered_next; [apply IH, E4|]. apply offered_nil.
Qed.

(** The five ways four children can answer. *)
Lemma offered_four P ne nw se sw r ne' nw' se' sw' :
  offered P [ne; nw; se; sw] r [ne'; nw'; se'; sw'] ->
  (r = true /\ P ne true ne' /\ nw' = nw /\ se' = se /\ sw' = sw) \/
  (r = true /\ P ne false ne' /\ P nw true nw' /\ se' = se /\ sw' = sw) \/
  (r = true /\ P ne false ne' /\ P nw false nw' /\ P se true se' /\ sw' = sw) \/
  (r = true /\ P ne false ne' /\ P nw false nw' /\ P se false se' /\
   P sw true sw') \/
  (r = false /\ P ne false ne' /\ P nw false nw' /\ P se false se' /\
   P sw false sw').
Proof.
  intros H.
  inversion H; subst; [left; auto|]. right.
  match goal with H' : offered _ [nw; se; sw] _ _ |- _ =>
    inversion H'; subst; [left; auto|] end. right.
  match goal with H' : offered _ [se; sw] _ _ |- _ =>
    inversion H'; subst; [left; auto|] end. right.
  match goal with H' : offered _ [sw] _ _ |- _ =>
    inversion H'; subst; [left; auto|] end. right.
  match goal with H' : offered _ [] _ _ |- _ => inversion H'; subst end.
  auto.
Qed.

Lemma subdivided_cases t b cap o ne nw se sw :
  (if negb (divided t) then subdivide t else t) = Quad b cap o true ne nw se sw ->
  b = boundary t /\ cap = capacity t /\ o = objects t /\
  (t = Quad b cap o true ne nw se sw \/
   (divided t = false /\
    [ne; nw; se; sw] =
      map (fun q => new_QuadTree q (capacity t)) (quadrants (boundary t)))).
Proof.
  intros H. destruct t as [b0 c0 o0|b0 c0 o0 [|] k1 k2 k3 k4];
    unfold subdivide in H; cbn in H; injection H as <- <- <- <- <- <- <-;
    cbn; repeat split; auto.
Qed.

Lemma inserted_reachable b cap log t : inserted b cap log t -> reachable b cap t.
Proof.
  induction 1; [apply reach_new|]. eapply reach_insert; eauto.
Qed.

Lemma nodes_Quad (P : QuadTree -> Prop) b c o ne nw se sw :
  Forall P (nodes (Quad b c o true ne nw se sw)) <->
  P (Quad b c o true ne nw se sw) /\
  Forall P (nodes ne) /\ Forall P (nodes nw) /\
  Forall P (nodes se) /\ Forall P (nodes sw).
Proof.
  cbn [nodes]. rewrite Forall_cons_iff, !Forall_app. tauto.
Qed.

Lemma nodes_undivided (P : QuadTree -> Prop) t :
  divided t = false -> (Forall P (nodes t) <-> P t).
Proof.
  intros H. destruct t as [|? ? ? [|] ? ? ? ?]; try discriminate;
    cbn [nodes]; rewrite Forall_cons_iff; intuition.
Qed.

Lemma nodes_root (P : QuadTree -> Prop) t : Forall P (nodes t) -> P t.
Proof.
  destruct t as [|? ? ? [|] ? ? ? ?]; cbn [nodes]; intros H;
    apply Forall_inv in H; exact H.
Qed.

Lemma nodes_clear (P : QuadTree -> Prop) t :
  Forall P (nodes (clear t)) <-> P (clear t).
Proof.
  apply nodes_undivided. destruct t as [|? ? ? [|] ? ? ? ?]; reflexivity.
Qed.

Lemma offered_Forall (I : QuadTree -> Prop) ks r ks' :
  offered (fun k _ k' => I k -> I k') ks r ks' -> Forall I ks -> Forall I ks'.
Proof.
  induction 1; intros HF; inversion HF; subst; constructor; auto.
Qed.

Lemma Forall_four {A} (I : A -> Prop) a b c d :
  Forall I [a; b; c; d] <-> I a /\ I b /\ I c /\ I d.
Proof.
  rewrite !Forall_cons_iff. intuition.
Qed.

(** Invariants that speak of each node in use through its region, capacity
    and own list of circles. *)
Section NodeInvariant.
Variable N : Rectangle -> nat -> list Circle -> Prop.

Hypothesis N_push : forall b cap o c,
  N b cap o -> contains b c = true -> (length o < cap)%nat -> N b cap (o ++ [c]).
Hypothesis N_fresh : forall b cap o q,
  N b cap o -> In q (quadrants b) -> N q cap [].
Hypothesis N_empty : forall b cap o, N b cap o -> N b cap [].

Lemma insert_nodes fuel t c r t' :
  insert fuel t c = Some (r, t') ->
  Forall (node_holds N) (nodes t) -> Forall (node_holds N) (nodes t').
Proof.
  revert fuel t r t'.
  apply (insert_induction c
           (fun t _ t' => Forall (node_holds N) (nodes t) ->
                          Forall (node_holds N) (nodes t'))).
  - auto.
  - intros t Hc Hlen HF.
    destruct t as [b cap o|b cap o [|] ne nw se sw]; cbn [push].
    + apply nodes_undivided in HF; [|reflexivity].
      apply nodes_undivided; [reflexivity|]. apply N_push; assumption.
    + apply nodes_Quad in HF. apply nodes_Quad.
      destruct HF as (H0 & H1). split; [|exact H1]. apply N_push; assumption.
    + apply nodes_undivided in HF; [|reflexivity].
      apply nodes_undivided; [reflexivity|]. apply N_push; assumption.
  - intros t b cap o ne nw se sw r ne' nw' se' sw' Hc Hlen Hsub Hoff HF.
    apply subdivided_cases in Hsub.
    destruct Hsub as (-> & -> & -> & [Ht|[Hd Hk]]).
    + rewrite Ht in HF. apply nodes_Quad in HF.
      destruct HF as (H0 & H1 & H2 & H3 & H4).
      apply offered_Forall in Hoff; [|apply Forall_four; auto].
      apply nodes_Quad. split; [exact H0|].
      apply Forall_four in Hoff. exact Hoff.
    + apply nodes_undivided in HF; [|exact Hd].
      injection Hk as -> -> -> ->.
      apply offered_Forall in Hoff.
      * apply nodes_Quad. split; [exact HF|].
        apply Forall_four in Hoff. exact Hoff.
      * apply Forall_four; repeat split;
          (apply nodes_undivided; [reflexivity|]);
          unfold node_holds; cbn [boundary capacity objects new_QuadTree];
          eapply N_fresh; try exact HF; cbn; auto.
Qed.

Lemma clear_nodes t :
  Forall (node_holds N) (nodes t) -> Forall (node_holds N) (nodes (clear t)).
Proof.
  intros HF. apply nodes_root in HF. apply nodes_clear.
  destruct t as [|? ? ? [|] ? ? ? ?]; cbn in *; eapply N_empty; eauto.
Qed.

Lemma reachable_nodes b cap t :
  N b cap [] -> reachable b cap t -> Forall (node_holds N) (nodes t).
Proof.
  intros H0. induction 1.
  - apply nodes_undivided; [reflexivity|]. exact H0.
  - eapply insert_nodes; eauto.
  - apply clear_nodes; assumption.
Qed.
End NodeInvariant.
(* ------------------------------------------------------------------ *)
(** ** [retrieve] *)

Lemma retrieve_app t q found :
  retrieve t q found = found ++ retrieve t q [].
Proof.
  revert found.
  induction t as [b c o|b c o d ne IHne nw IHnw se IHse sw IHsw]; intros found;
    cbn [retrieve].
  - destruct (intersects b q); cbn [negb]; [reflexivity|].
    rewrite app_nil_r. reflexivity.
  - destruct (intersects b q); cbn [negb]; [|rewrite app_nil_r; reflexivity].
    destruct d; [|reflexivity].
    rewrite IHsw, IHse, IHnw, IHne.
    rewrite (IHsw (retrieve _ _ _)), (IHse (retrieve _ _ _)),
            (IHnw (retrieve _ _ _)), (IHne ([] ++ o)).
    cbn [app]. rewrite <- !app_assoc. reflexivity.
Qed.

Lemma retrieve_unfold t q :
  retrieve t q [] =
  if intersects (boundary t) q then
    objects t ++
    match t with
    | Quad _ _ _ true ne nw se sw =>
        retrieve ne q [] ++ retrieve nw q [] ++ retrieve se q [] ++ retrieve sw q []
    | _ => []
    end
  else [].
Proof.
  destruct t as [b c o|b c o [|] ne nw se sw]; cbn [retrieve boundary objects];
    destruct (intersects b q); cbn [negb app]; rewrite ?app_nil_r; try reflexivity.
  rewrite (retrieve_app sw), (retrieve_app se), (retrieve_app nw),
          (retrieve_app ne).
  rewrite <- !app_assoc. reflexivity.
Qed.





(* ------------------------------------------------------------------ *)
(** ** What one [insert] does to the stored circles *)

Lemma all_objects_undivided t : divided t = false -> all_objects t = objects t.
Proof.
  destruct t as [|? ? ? [|] ? ? ? ?]; try discriminate; reflexivity.
Qed.

Lemma stored_inside_undivided t :
  divided t = false ->
  (stored_inside t <->
   Forall (fun c => contains (boundary t) c = true) (objects t)).
Proof.
  destruct t as [|? ? ? [|] ? ? ? ?]; try discriminate; cbn; tauto.
Qed.

(** Bring every [c ::] met inside a chain of appends to the front. *)
Ltac perm_front :=
  cbn [app]; repeat rewrite <- Permutation_middle; try reflexivity.

Lemma insert_effect c fuel t r t' :
  insert fuel t c = Some (r, t') ->
  boundary t' = boundary t /\
  Permutation (all_objects t') (if r then c :: all_objects t else all_objects t) /\
  (r = true -> contains (boundary t) c = true) /\
  (stored_inside t -> stored_inside t').
Proof.
  revert fuel t r t'.
  apply (insert_induction c (fun t r t' =>
    boundary t' = boundary t /\
    Permutation (all_objects t') (if r then c :: all_objects t else all_objects t) /\
    (r = true -> contains (boundary t) c = true) /\
    (stored_inside t -> stored_inside t'))).
  - intros t Hc. repeat split; auto. discriminate.
  - intros t Hc Hlen.
    assert (Hperm : Permutation (all_objects (push c t)) (c :: all_objects t)).
    { destruct t as [b cap o|b cap o [|] ne nw se sw]; cbn [push all_objects];
        rewrite <- ?app_assoc; perm_front; rewrite app_nil_r; reflexivity. }
    assert (Hb : boundary (push c t) = boundary t) by (destruct t; reflexivity).
    split; [exact Hb|]. split; [exact Hperm|]. split; [intros _; exact Hc|].
    intros Hin.
    assert (Hall : Forall (fun s => contains (boundary (push c t)) s = true)
                          (all_objects (push c t))).
    { rewrite Hb. eapply Permutation_Forall; [symmetry; exact Hperm|].
      constructor; [exact Hc|].
      destruct t as [|? ? ? [|] ? ? ? ?]; apply Hin. }
    destruct t as [b cap o|b cap o [|] ne nw se sw]; cbn [push] in *;
      cbn [stored_inside]; (split; [exact Hall|]); auto; apply Hin.
  - intros t b cap o ne nw se sw r ne' nw' se' sw' Hc Hlen Hsub Hoff.
    assert (H0 : all_objects (Quad b cap o true ne nw se sw) = all_objects t /\
                 (stored_inside t -> stored_inside (Quad b cap o true ne nw se sw))).
    { apply subdivided_cases in Hsub.
      destruct Hsub as (-> & -> & -> & [Ht|[Hd Hk]]).
      - rewrite <- Ht. auto.
      - injection Hk as -> -> -> ->. cbn [all_objects new_QuadTree app].
        rewrite app_nil_r, all_objects_undivided by exact Hd.
        split; [reflexivity|]. intros Hin.
        apply stored_inside_undivided in Hin; [|exact Hd].
        cbn [stored_inside all_objects boundary app]. rewrite app_nil_r.
        repeat split; auto. }
    destruct H0 as [Hobj Hin0].
    assert (Hb : b = boundary t).
    { apply subdivided_cases in Hsub. tauto. }
    subst b. rewrite <- Hobj. cbn [all_objects boundary].
    assert (Hperm :
      Permutation (o ++ all_objects ne' ++ all_objects nw' ++
                   all_objects se' ++ all_objects sw')
        (if r then c :: o ++ all_objects ne ++ all_objects nw ++
                      all_objects se ++ all_objects sw
         else o ++ all_objects ne ++ all_objects nw ++
              all_objects se ++ all_objects sw)).
    { apply offered_four in Hoff.
      destruct Hoff as [(-> & (_ & P1 & _) & -> & -> & ->)
                       |[(-> & (_ & P1 & _) & (_ & P2 & _) & -> & ->)
                       |[(-> & (_ & P1 & _) & (_ & P2 & _) & (_ & P3 & _) & ->)
                       |[(-> & (_ & P1 & _) & (_ & P2 & _) & (_ & P3 & _) &
                          (_ & P4 & _))
                        |(-> & (_ & P1 & _) & (_ & P2 & _) & (_ & P3 & _) &
                          (_ & P4 & _))]]]];
        rewrite ?P1, ?P2, ?P3, ?P4; perm_front. }
    split; [reflexivity|]. split; [exact Hperm|]. split; [intros _; exact Hc|].
    intros Hin. specialize (Hin0 Hin). cbn [stored_inside boundary] in Hin0.
    destruct Hin0 as (Hall & I1 & I2 & I3 & I4).
    cbn [stored_inside boundary all_objects]. split.
    + eapply Permutation_Forall; [symmetry; exact Hperm|].
      destruct r; [constructor; [exact Hc|]|]; exact Hall.
    + apply offered_four in Hoff.
      destruct Hoff as [(_ & (_ & _ & _ & P1) & -> & -> & ->)
                       |[(_ & (_ & _ & _ & P1) & (_ & _ & _ & P2) & -> & ->)
                       |[(_ & (_ & _ & _ & P1) & (_ & _ & _ & P2) &
                          (_ & _ & _ & P3) & ->)
                       |[(_ & (_ & _ & _ & P1) & (_ & _ & _ & P2) &
                          (_ & _ & _ & P3) & (_ & _ & _ & P4))
                        |(_ & (_ & _ & _ & P1) & (_ & _ & _ & P2) &
                          (_ & _ & _ & P3) & (_ & _ & _ & P4))]]]];
        auto.
Qed.





Lemma sample_inserted : inserted sample_bounds 1 sample_log sample_tree3.
Proof.
  apply (inserted_snoc sample_bounds 1
           [(circle 10 10 5, true); (circle 80 20 5, true)]
           sample_tree2 3 (circle 50 50 5) false sample_tree3); [|reflexivity].
  apply (inserted_snoc sample_bounds 1 [(circle 10 10 5, true)]
           sample_tree1 3 (circle 80 20 5) true sample_tree2); [|reflexivity].
  apply (inserted_snoc sample_bounds 1 []
           (new_QuadTree sample_bounds 1) 3 (circle 10 10 5) true sample_tree1);
    [|reflexivity].
  apply inserted_nil.
Qed.

(* ------------------------------------------------------------------ *)
(** ** Capacity *)

Lemma reachable_within_capacity b cap t :
  reachable b cap t -> within_capacity cap t.
Proof.
  intros H. unfold within_capacity.
  apply (reachable_nodes (fun _ c o => c = cap /\ (length o <= cap)%nat))
    with (b := b) (cap := cap); try exact H.
  - intros b0 c0 o c [-> Hl] _ Hlt. split; [reflexivity|].
    rewrite length_app. cbn. lia.
  - intros b0 c0 o q [-> _] _. cbn. split; [reflexivity|lia].
  - intros b0 c0 o [-> _]. cbn. split; [reflexivity|lia].
  - cbn. split; [reflexivity|lia].
Qed.

(** C6. After any sequence of inserts into a new quad-tree (clears in
    between do no harm), every leaf node, that is every node in use whose
    [divided] flag is false, has the configured capacity and holds at most
    that many circles in [objects]. *)
Theorem C6_leaf_capacity (B : Rectangle) (cap : nat) (t : QuadTree) :
  reachable B cap t ->
  Forall (fun n => divided n = false ->
                   capacity n = cap /\ (length (objects n) <= capacity n)%nat)
         (nodes t).
Proof.
  intros Hreach.
  eapply Forall_impl; [|eapply reachable_within_capacity, Hreach].
  intros n [Hc Hl] _. rewrite Hc. auto.
Qed.

Lemma C6_witness :
  Forall (fun n => divided n = false ->
                   capacity n = 1%nat /\ (length (objects n) <= capacity n)%nat)
         (nodes sample_tree3).
Proof.
  apply (C6_leaf_capacity sample_bounds 1).
  eapply inserted_reachable, sample_inserted.
Defined.

(* ------------------------------------------------------------------ *)
(** ** [clear] *)

(** C7. [clear] is idempotent: clearing twice leaves the state one clear
    leaves, an empty leaf (no objects, [divided] false), and [retrieve] with
    an empty accumulator then returns the empty list for every query. *)
Theorem C7_clear_idempotent (t : QuadTree) :
  clear (clear t) = clear t /\
  objects (clear t) = [] /\
  divided (clear t) = false /\
  forall q, retrieve (clear t) q [] = [] /\ retrieve (clear (clear t)) q [] = [].
Proof.
  assert (H : forall q, retrieve (clear t) q [] = []).
  { intros q. destruct t as [b c o|b c o [|] ne nw se sw]; cbn;
      destruct (intersects b q); reflexivity. }
  assert (E : clear (clear t) = clear t)
    by (destruct t as [|? ? ? [|] ? ? ? ?]; reflexivity).
  repeat split.
  - exact E.
  - destruct t as [|? ? ? [|] ? ? ? ?]; reflexivity.
  - destruct t as [|? ? ? [|] ? ? ? ?]; reflexivity.
  - apply H.
  - rewrite E. apply H.
Qed.

(* ------------------------------------------------------------------ *)
(** ** The regions of the nodes *)

Lemma root_boundary b cap t : reachable b cap t -> boundary t = b.
Proof.
  induction 1 as [|t fuel obj r t' _ IH Hins|t _ IH].
  - reflexivity.
  - destruct (insert_effect _ _ _ _ _ Hins) as [Hb _]. congruence.
  - destruct t as [|? ? ? [|] ? ? ? ?]; exact IH.
Qed.

Lemma root_capacity b cap t : reachable b cap t -> capacity t = cap.
Proof.
  intros H. apply reachable_within_capacity in H.
  apply nodes_root in H. tauto.
Qed.

(** After [subdivide], or in a subdivided node that is well divided, the
    regions of the four children are the quadrants of the node. *)
Lemma children_regions t b cap o ne nw se sw :
  (if negb (divided t) then subdivide t else t) = Quad b cap o true ne nw se sw ->
  well_divided t ->
  map boundary [ne; nw; se; sw] = quadrants (boundary t) /\
  well_divided ne /\ well_divided nw /\ well_divided se /\ well_divided sw.
Proof.
  intros Hsub Hwd. apply subdivided_cases in Hsub.
  destruct Hsub as (-> & -> & -> & [Ht|[Hd Hk]]).
  - rewrite Ht in Hwd. cbn [well_divided] in Hwd. exact Hwd.
  - injection Hk as -> -> -> ->. cbn. auto.
Qed.

Lemma insert_well_divided c fuel t r t' :
  insert fuel t c = Some (r, t') -> well_divided t -> well_divided t'.
Proof.
  intros H.
  assert (G : boundary t' = boundary t /\ (well_divided t -> well_divided t'));
    [|tauto].
  revert fuel t r t' H.
  apply (insert_induction c (fun t _ t' =>
    boundary t' = boundary t /\ (well_divided t -> well_divided t'))).
  - auto.
  - intros t _ _. split; destruct t as [|? ? ? [|] ? ? ? ?]; auto.
  - intros t b cap o ne nw se sw r ne' nw' se' sw' _ _ Hsub Hoff.
    split; [apply subdivided_cases in Hsub; destruct Hsub as (-> & _);
            reflexivity|].
    intros Hwd.
    destruct (children_regions _ _ _ _ _ _ _ _ Hsub Hwd)
      as (Hq & W1 & W2 & W3 & W4).
    assert (Hb : b = boundary t) by (apply subdivided_cases in Hsub; tauto).
    subst b. cbn [well_divided]. cbn [map] in Hq. cbn [map].
    apply offered_four in Hoff.
    destruct Hoff as [(_ & (B1 & P1) & -> & -> & ->)
                     |[(_ & (B1 & P1) & (B2 & P2) & -> & ->)
                     |[(_ & (B1 & P1) & (B2 & P2) & (B3 & P3) & ->)
                     |[(_ & (B1 & P1) & (B2 & P2) & (B3 & P3) & (B4 & P4))
                      |(_ & (B1 & P1) & (B2 & P2) & (B3 & P3) & (B4 & P4))]]]];
      rewrite ?B1, ?B2, ?B3, ?B4; auto 10.
Qed.

Lemma reachable_well_divided b cap t : reachable b cap t -> well_divided t.
Proof.
  induction 1 as [|t fuel obj r t' _ IH Hins|t _ IH].
  - exact I.
  - eapply insert_well_divided; eauto.
  - destruct t as [|? ? ? [|] ? ? ? ?]; exact I.
Qed.


(* ------------------------------------------------------------------ *)
(** ** Retrieval over the whole region *)

Lemma exactly_value a q :
  exactly a q = true -> exists p, value a = Some p /\ p == q.
Proof.
  unfold exactly. destruct (value a) as [p|]; [|discriminate].
  intros H. apply Qeq_bool_iff in H. eauto.
Qed.

(** Where [subdivide] does not round, the four quadrants denote rectangles
    inside the region. *)
Lemma quadrant_values b R B :
  rectangle_value b = Some R -> ideal_sub_rectangle R B ->
  subdivide_unrounded b = true ->
  Forall (fun q => exists Q', rectangle_value q = Some Q' /\
                              ideal_sub_rectangle Q' B) (quadrants b).
Proof.
  intros HR Hsub H. unfold subdivide_unrounded in H. rewrite HR in H.
  split_andb.
  apply rectangle_value_inv in HR. destruct HR as (Vx & Vy & Vw & Vh).
  repeat match goal with
  | Hx : exactly _ _ = true |- _ =>
      apply exactly_value in Hx; destruct Hx as (? & ? & ?)
  end.
  destruct R as [rx ry rw rh], B as [bx by_ bw bh].
  unfold ideal_sub_rectangle in *.
  cbn [qrect_x qrect_y qwidth qheight] in *.
  destruct Hsub as (Hw & Hh & Hx1 & Hx2 & Hy1 & Hy2).
  unfold quadrants. cbv zeta. apply Forall_four. cbv beta.
  unfold rectangle_value. cbn [rect_x rect_y width height].
  repeat match goal with
  | Hv : value ?a = Some _ |- context [value ?a] => rewrite Hv
  end.
  halves.
  repeat split; eexists; (split; [reflexivity|]);
    cbn [qrect_x qrect_y qwidth qheight]; repeat split; lra.
Qed.

Lemma regions_inside_tree B t :
  well_divided t ->
  (exists R, rectangle_value (boundary t) = Some R /\ ideal_sub_rectangle R B) ->
  Forall (fun n => divided n = true -> subdivide_unrounded (boundary n) = true)
         (nodes t) ->
  regions_inside B t.
Proof.
  unfold regions_inside.
  induction t as [b c o|b c o d ne IHne nw IHnw se IHse sw IHsw];
    intros Hwd Hroot Hexact.
  - cbn [nodes]. constructor; [exact Hroot|constructor].
  - destruct d; [|cbn [nodes]; constructor; [exact Hroot|constructor]].
    apply nodes_Quad in Hexact.
    destruct Hexact as (H0 & H1 & H2 & H3 & H4).
    destruct Hwd as (Hq & W1 & W2 & W3 & W4).
    destruct Hroot as (R & HR & Hsub).
    specialize (H0 eq_refl). cbn [boundary] in H0, HR.
    pose proof (quadrant_values _ _ _ HR Hsub H0) as Hquad.
    rewrite <- Hq in Hquad. cbn [map] in Hquad.
    apply Forall_four in Hquad. destruct Hquad as (Q1 & Q2 & Q3 & Q4).
    apply nodes_Quad. split; [exists R; auto|]. auto.
Qed.






(* ------------------------------------------------------------------ *)
(** ** The broad phase is sound *)




(* ------------------------------------------------------------------ *)
(** ** The contract of [insert] *)

(** A node is subdivided only once it is full. *)
Lemma reachable_divided_full b cap t :
  reachable b cap t ->
  divided t = true -> (capacity t <= length (objects t))%nat.
Proof.
  induction 1 as [|t fuel obj r t' Hreach IH Hins|t Hreach IH].
  - discriminate.
  - revert fuel t r t' Hins Hreach IH.
    apply (insert_induction obj (fun t _ t' =>
      reachable b cap t ->
      (divided t = true -> (capacity t <= length (objects t))%nat) ->
      divided t' = true -> (capacity t' <= length (objects t'))%nat)).
    + auto.
    + intros t _ _ _ IH Hd.
      destruct t as [|b0 c0 o0 d0 ? ? ? ?]; cbn in *; [discriminate|].
      specialize (IH Hd). rewrite length_app. lia.
    + intros t b0 cap0 o ne nw se sw r ne' nw' se' sw' _ Hlen Hsub _ _ _ _.
      apply subdivided_cases in Hsub. destruct Hsub as (_ & -> & -> & _).
      exact Hlen.
  - destruct t as [|? ? ? [|] ? ? ? ?]; discriminate.
Qed.

(** C8. In every state reached by inserts and clears, and for every circle,
    [insert] does what its description says: false at once, the node
    unchanged, when the region does not contain the circle; when the node
    is a leaf below capacity, true, the circle appended to the node's
    collection; otherwise the circle is offered to the four children in
    the order NE, NW, SE, SW, stopping at the first child that accepts,
    false only when none does, where the children of a node not yet
    subdivided are four new empty leaves of the same capacity over the
    four equal quadrants of its region, and the node is subdivided
    afterwards. *)
Theorem C8_insert_contract (B : Rectangle) (cap : nat) (t : QuadTree)
  (fuel : nat) (obj : Circle) :
  reachable B cap t ->
  insert (S fuel) t obj = insert_contract (insert fuel) t obj.
Proof.
  intros Hreach. pose proof (reachable_divided_full _ _ _ Hreach) as Hfull.
  unfold insert_contract. cbn [insert].
  destruct (contains (boundary t) obj); cbn [negb]; [|reflexivity].
  destruct (length (objects t) <? capacity t)%nat eqn:Hlen.
  - destruct (divided t) eqn:Hd; cbn [negb andb];
      [|destruct t; reflexivity].
    apply Nat.ltb_lt in Hlen. specialize (Hfull eq_refl). lia.
  - rewrite andb_false_r.
    destruct t as [b c o|b c o [|] ne nw se sw];
      cbn [divided negb subdivide new_QuadTree children_offered quadrants map
           boundary capacity objects width height rect_x rect_y
           first_accepting];
      unfold new_QuadTree;
      repeat match goal with
      | |- context [insert fuel ?k obj] =>
          destruct (insert fuel k obj) as [[[|] ?]|]; try reflexivity
      end.
Qed.

Lemma C8_witness :
  insert 3 sample_tree2 (circle 50 50 5) =
  insert_contract (insert 2) sample_tree2 (circle 50 50 5).
Proof.
  apply (C8_insert_contract sample_bounds 1).
  apply (reach_insert _ _ sample_tree1 3 (circle 80 20 5) true); [|reflexivity].
  apply (reach_insert _ _ (new_QuadTree sample_bounds 1) 3 (circle 10 10 5) true);
    [|reflexivity].
  apply reach_new.
Defined.

(** With a capacity of at least 1, [insert] returns: a depth of two calls
    more than the depth of the tree is enough. *)
Lemma insert_fresh fuel q cap c :
  (0 < cap)%nat ->
  insert (S fuel) (new_QuadTree q cap) c =
  Some (contains q c, if contains q c then Leaf q cap [c] else Leaf q cap []).
Proof.
  intros Hcap. cbn [insert new_QuadTree boundary objects capacity length].
  destruct (contains q c); cbn [negb]; [|reflexivity].
  destruct cap; [lia|]. reflexivity.
Qed.

Lemma insert_S fuel t obj :
  insert (S fuel) t obj =
  if negb (contains (boundary t) obj) then Some (false, t)
  else if (length (objects t) <? capacity t)%nat then Some (true, push obj t)
  else
    match (if negb (divided t) then subdivide t else t) with
    | Leaf _ _ _ => None
    | Quad b c o d ne nw se sw =>
      match insert fuel ne obj with
      | None => None
      | Some (true, ne') => Some (true, Quad b c o d ne' nw se sw)
      | Some (false, ne') =>
        match insert fuel nw obj with
        | None => None
        | Some (true, nw') => Some (true, Quad b c o d ne' nw' se sw)
        | Some (false, nw') =>
          match insert fuel se obj with
          | None => None
          | Some (true, se') => Some (true, Quad b c o d ne' nw' se' sw)
          | Some (false, se') =>
            match insert fuel sw obj with
            | None => None
            | Some (r, sw') => Some (r, Quad b c o d ne' nw' se' sw')
            end
          end
        end
      end
    end.
Proof. reflexivity. Qed.

Lemma insert_returns c t :
  Forall (fun n => (0 < capacity n)%nat) (nodes t) ->
  forall fuel, (depth t + 2 <= fuel)%nat ->
  exists r t', insert fuel t c = Some (r, t').
Proof.
  assert (Hfresh : forall t fuel,
    (0 < capacity t)%nat -> divided t = false ->
    exists r t', insert (S (S fuel)) t c = Some (r, t')).
  { intros t0 fuel Hcap Hd. rewrite insert_S, Hd. cbn [negb].
    destruct (contains (boundary t0) c); cbn [negb]; [|eauto].
    destruct (length (objects t0) <? capacity t0)%nat; [eauto|].
    unfold subdivide.
    rewrite !insert_fresh by exact Hcap.
    repeat match goal with
           | |- context [contains ?q c] =>
               lazymatch q with
               | boundary _ => fail
               | _ => destruct (contains q c)
               end
           end; eauto. }
  induction t as [b cap o|b cap o d ne IHne nw IHnw se IHse sw IHsw];
    intros HF fuel Hfuel.
  - destruct fuel as [|[|fuel]]; cbn in Hfuel; try lia.
    apply Hfresh; [|reflexivity]. apply nodes_root in HF. exact HF.
  - destruct d.
    2:{ destruct fuel as [|[|fuel]]; cbn in Hfuel; try lia.
        apply Hfresh; [|reflexivity]. apply nodes_root in HF. exact HF. }
    apply nodes_Quad in HF. destruct HF as (_ & H1 & H2 & H3 & H4).
    destruct fuel as [|fuel]; [lia|]. cbn [depth] in Hfuel.
    destruct (IHne H1 fuel) as (r1 & ne' & E1); [lia|].
    destruct (IHnw H2 fuel) as (r2 & nw' & E2); [lia|].
    destruct (IHse H3 fuel) as (r3 & se' & E3); [lia|].
    destruct (IHsw H4 fuel) as (r4 & sw' & E4); [lia|].
    rewrite insert_S. cbn [boundary objects capacity divided negb].
    destruct (contains b c); cbn [negb]; [|eauto].
    destruct (length o <? cap)%nat; [eauto|].
    rewrite E1, E2, E3, E4.
    destruct r1; [eauto|]. destruct r2; [eauto|]. destruct r3; eauto.
Qed.

Lemma reachable_insert_returns b cap t c :
  (0 < cap)%nat -> reachable b cap t ->
  exists r t', insert (depth t + 2) t c = Some (r, t').
Proof.
  intros Hcap Hreach. apply insert_returns; [|lia].
  eapply Forall_impl; [|apply (reachable_within_capacity _ _ _ Hreach)].
  intros n [-> _]. exact Hcap.
Qed.

(* ------------------------------------------------------------------ *)
(** ** The engine switched off *)

(** C10. With [USE_QUADTREE] false, [update] and [checkCollisions] do
    nothing whatever the game state: [update] leaves the engine, and so the
    quad-tree, as it was, and [checkCollisions] makes no call to the hit
    callback. *)
Theorem C10_disabled_noop (this : CollisionEngine) (gameState : GameState)
  (fuel : nat) :
  USE_QUADTREE this = false ->
  update fuel this gameState = Some this /\
  checkCollisions this gameState = [].
Proof.
  intros Hoff. unfold update, checkCollisions. rewrite Hoff. split; reflexivity.
Qed.

Lemma C10_witness :
  update 0 (engine_with false sample_bounds 4) sample_state
    = Some (engine_with false sample_bounds 4) /\
  checkCollisions (engine_with false sample_bounds 4) sample_state = [].
Proof.
  apply C10_disabled_noop. reflexivity.
Defined.

(* ------------------------------------------------------------------ *)
(** ** The engine as shipped *)
Lemma shipped_contains c : contains COLLISION_WORLD_BOUNDS c = false.
Proof.
  unfold contains, COLLISION_WORLD_BOUNDS, num_le, add, lift2.
  cbn [rect_x rect_y width height to_number].
  rewrite add_nan_r, leb_nan_r, andb_false_r. reflexivity.
Qed.

Lemma shipped_intersects c : intersects COLLISION_WORLD_BOUNDS c = false.
Proof.
  unfold intersects, COLLISION_WORLD_BOUNDS, num_le, num_gt, num_lt, add, sub,
    mul, half, abs, lift2.
  cbn [rect_x rect_y width height to_number].
  change (PrimFloat.div PrimFloat.nan 2) with PrimFloat.nan.
  rewrite !add_nan_l, !ltb_nan_l, !leb_nan_r, !sub_nan_r, !mul_nan_l,
    !add_nan_l, leb_nan_l.
  reflexivity.
Qed.

Lemma shipped_insert_each fuel cs :
  insert_each (S fuel) (quadTree shipped_engine) cs =
  Some (repeat false (length cs), quadTree shipped_engine).
Proof.
  induction cs as [|c cs IH]; [reflexivity|].
  cbn [insert_each]. rewrite insert_S.
  change (boundary (quadTree shipped_engine)) with COLLISION_WORLD_BOUNDS.
  rewrite shipped_contains. cbn [negb]. rewrite IH. reflexivity.
Qed.

(** C2. [COLLISION_WORLD_BOUNDS] defines only [x], so the boundary of the
    engine's quad-tree has undefined [y], [width] and [height]; hence for
    every circle [contains] and [intersects] of that boundary are false,
    every insert made by [update] returns false (and [update] leaves the
    engine as it was), every [retrieve] returns the empty list, and
    [checkCollisions] makes no call to the hit callback, for every game
    state. *)
Theorem C2_shipped_bounds_reject_everything :
  boundary (quadTree shipped_engine) = mkRectangle (Num 0) Undef Undef Undef /\
  (forall c, contains (boundary (quadTree shipped_engine)) c = false /\
             intersects (boundary (quadTree shipped_engine)) c = false) /\
  (forall fuel gameState,
     insert_each (S fuel) (clear (quadTree shipped_engine))
       (map player_circle (players gameState) ++
        map projectile_circle (projectiles gameState)) =
     Some (repeat false (length (players gameState) +
                         length (projectiles gameState)),
           quadTree shipped_engine) /\
     update (S fuel) shipped_engine gameState = Some shipped_engine) /\
  (forall q, retrieve (quadTree shipped_engine) q [] = []) /\
  (forall gameState, checkCollisions shipped_engine gameState = []).
Proof.
  assert (Hret : forall q, retrieve (quadTree shipped_engine) q [] = []).
  { intros q. cbn [retrieve quadTree shipped_engine engine_with new_QuadTree].
    change (mkRectangle _ _ _ _) with COLLISION_WORLD_BOUNDS.
    rewrite shipped_intersects. reflexivity. }
  split; [reflexivity|]. split; [|split; [|split]].
  - intros c. split; [apply shipped_contains|apply shipped_intersects].
  - intros fuel gs. split.
    + change (clear (quadTree shipped_engine)) with (quadTree shipped_engine).
      rewrite shipped_insert_each, length_app, !length_map. reflexivity.
    + unfold update. cbn [USE_QUADTREE shipped_engine engine_with negb].
      change (clear (new_QuadTree _ _)) with (quadTree shipped_engine).
      rewrite !shipped_insert_each. reflexivity.
  - exact Hret.
  - intros gs. unfold checkCollisions.
    cbn [USE_QUADTREE shipped_engine engine_with negb].
    induction (projectiles gs) as [|p ps IH]; [reflexivity|].
    cbn [flat_map]. rewrite IH.
    change (new_QuadTree _ _) with (quadTree shipped_engine).
    rewrite Hret. reflexivity.
Qed.

(* ------------------------------------------------------------------ *)
(** ** The narrow phase *)

Lemma bool_eq_iff (a b : bool) : (a = true <-> b = true) -> a = b.
Proof.
  destruct a, b; intros [H1 H2]; try reflexivity.
  - symmetry. apply H1. reflexivity.
  - apply H2. reflexivity.
Qed.

(** The comparison of a rounded square root with exact operands:
    [Math.sqrt(s) < t] holds only if [t] is positive and [s < t * t]; and
    if it fails although [t] is positive and [s < t * t], the rounded root
    is [t] itself. *)
Lemma sqrt_lt_sides s t sigma tau :
  exactly s sigma = true -> exactly t tau = true -> 0 <= sigma ->
  ((sqrt s <? t)%num = true -> 0 < tau /\ sigma < tau * tau) /\
  (0 < tau -> sigma < tau * tau -> (sqrt s <? t)%num = false ->
   exactly (sqrt s) tau = true).
Proof.
  intros Hs Ht H0.
  destruct (exactly_inv _ _ Hs) as (fs & ps & -> & Vs & Es).
  destruct (exactly_inv _ _ Ht) as (ft & pt & -> & Vt & Et).
  assert (H0' : 0 <= ps) by (rewrite Es; exact H0).
  destruct (sqrt_compare _ _ _ _ Vs Vt H0') as (rho & Vr & Hr0 & Hup & Hdown).
  unfold num_lt, sqrt, exactly, value. cbn [to_number].
  rewrite (ltb_value _ _ _ _ Vr Vt), Vr. cbn [option_map]. split.
  - rewrite negb_true_iff. intros Hlt. apply Qle_bool_false in Hlt.
    specialize (Hup Hlt). rewrite <- Et, <- Es. split; lra.
  - intros Htau Hsig Hge. rewrite <- Et in Htau. rewrite <- Et, <- Es in Hsig.
    specialize (Hdown Htau Hsig).
    apply negb_false_iff, Qle_bool_iff in Hge.
    apply Qeq_bool_iff. rewrite Qred_correct, <- Et. lra.
Qed.

(** Where its inputs are exact, [circleCollision] accepts no pair beyond
    reach, and turns down a pair within reach only when the root rounds to
    the sum of the radii in use. *)
Lemma collision_sides a b :
  collision_inputs_exact a b = true ->
  (circleCollision a b = true -> within_reach a b = true) /\
  (within_reach a b = true -> circleCollision a b = false ->
   root_rounds_to_sum a b = true).
Proof.
  unfold collision_inputs_exact, within_reach, root_rounds_to_sum.
  destruct (circle_value (in_use a)) as [a'|]; [|discriminate].
  destruct (circle_value (in_use b)) as [b'|]; [|discriminate].
  cbv zeta. intros H. split_andb.
  unfold circleCollision, ideal_collision. cbv zeta.
  cbn [in_use radius] in *.
  match goal with
  | Hsum : exactly (_ * _ + _ * _) _ = true,
    Hrad : exactly (or_default _ _ + or_default _ _) _ = true |- _ =>
      destruct (sqrt_lt_sides _ _ _ _ Hsum Hrad) as [Hup Hdown]
  end.
  { pose proof (square_nonneg (qx a' - qx b')).
    pose proof (square_nonneg (qy a' - qy b')). lra. }
  split.
  - intros Hcc. destruct (Hup Hcc) as [Ht Hst].
    apply andb_true_iff. split; apply Qlt_bool_iff; assumption.
  - intros Hin Hcc. apply andb_true_iff in Hin. destruct Hin as [Ht Hst].
    apply Qlt_bool_iff in Ht, Hst.
    rewrite (Hdown Ht Hst Hcc). cbn [andb]. apply negb_true_iff.
    destruct (Qeq_bool _ _) eqn:E; [|reflexivity].
    apply Qeq_bool_iff in E. lra.
Qed.

(** Where, in addition, the root does not round to the sum of the radii,
    [circleCollision] is the exact comparison. *)
Lemma collision_exact a b :
  collision_faithful a b = true -> circleCollision a b = within_reach a b.
Proof.
  unfold collision_faithful. intros H. apply andb_true_iff in H.
  destruct H as [Hin Hroot]. apply negb_true_iff in Hroot.
  destruct (collision_sides _ _ Hin) as [Hup Hdown].
  apply bool_eq_iff. split; [exact Hup|].
  intros Hw. destruct (circleCollision a b) eqn:Hcc; [reflexivity|].
  rewrite (Hdown Hw eq_refl) in Hroot. discriminate.
Qed.

(** The exact comparison is the comparison of the real distance. *)
Lemma ideal_collision_real a b :
  ideal_collision a b = true <->
  (centre_distance a b < Q2R (qradius a + qradius b))%R.
Proof.
  unfold ideal_collision, centre_distance.
  set (s := (qx a - qx b) * (qx a - qx b) + (qy a - qy b) * (qy a - qy b)).
  set (t := qradius a + qradius b).
  assert (Hs : 0 <= s).
  { unfold s. pose proof (square_nonneg (qx a - qx b)).
    pose proof (square_nonneg (qy a - qy b)). lra. }
  clearbody s t.
  pose proof (Qle_Rle _ _ Hs) as Hs'.
  replace (Q2R 0) with 0%R in Hs' by (unfold Q2R; cbn; lra).
  rewrite andb_true_iff, !Qlt_bool_iff. split.
  - intros [Ht Hst]. apply Qlt_Rlt in Ht, Hst.
    replace (Q2R 0) with 0%R in Ht by (unfold Q2R; cbn; lra).
    rewrite Q2R_mult in Hst.
    rewrite <- (sqrt_square (Q2R t)) by lra.
    apply sqrt_lt_1; nra.
  - intros H. pose proof (sqrt_pos (Q2R s)) as Hp.
    pose proof (sqrt_sqrt (Q2R s) Hs') as Hsq.
    assert (Ht : (0 < Q2R t)%R) by lra.
    split.
    + apply Rlt_Qlt. replace (Q2R 0) with 0%R by (unfold Q2R; cbn; lra).
      exact Ht.
    + apply Rlt_Qlt. rewrite Q2R_mult. nra.
Qed.

(** C9, as the code has it. Each circle is read with the radius in use,
    [radius || 2]: a radius that is absent, [NaN] or zero is replaced by
    the default 2.  When the centres and the radii in use are finite, the
    two differences, their squares, the sum of the squares and the sum of
    the radii do not round, and the square root, where it is not exact,
    does not round to that sum, [circleCollision] returns true exactly
    when the distance between the two centres is strictly less than the
    sum of the two radii in use.
    For (0,0) radius 5 and (7,0) radius 3 it returns true, for (0,0)
    radius 5 and (9,0) radius 3 false. *)
Theorem C9_circleCollision_distance (a b : Circle) (a' b' : QCircle) :
  circle_value (in_use a) = Some a' ->
  circle_value (in_use b) = Some b' ->
  collision_faithful a b = true ->
  (circleCollision a b = true <->
   (centre_distance a' b' < Q2R (qradius a' + qradius b'))%R) /\
  circleCollision (circle 0 0 5) (circle 7 0 3) = true /\
  circleCollision (circle 0 0 5) (circle 9 0 3) = false.
Proof.
  intros Va Vb H. split; [|split; vm_compute; reflexivity].
  rewrite (collision_exact _ _ H). unfold within_reach. rewrite Va, Vb.
  apply ideal_collision_real.
Qed.

Lemma C9_witness :
  (circleCollision (circle 0 0 5) (circle 7 0 3) = true <->
   (centre_distance (mkQCircle 0 0 5) (mkQCircle 7 0 3) < Q2R (5 + 3))%R) /\
  circleCollision (circle 0 0 5) (circle 7 0 3) = true /\
  circleCollision (circle 0 0 5) (circle 9 0 3) = false.
Proof.
  apply (C9_circleCollision_distance (circle 0 0 5) (circle 7 0 3)
           (mkQCircle 0 0 5) (mkQCircle 7 0 3));
    vm_compute; reflexivity.
Defined.

(** C9 as stated fails for a radius that is present and zero: two points
    one apart are not closer than the sum 0 of their radii, yet the code,
    taking 2 for each radius, returns true. *)
Lemma C9_counterexample :
  radius (circle 0 0 0) = Num 0 /\ radius (circle 1 0 0) = Num 0 /\
  circleCollision_described (circle 0 0 0) (circle 1 0 0) = false /\
  circleCollision (circle 0 0 0) (circle 1 0 0) = true.
Proof.
  split; [reflexivity|]. split; [reflexivity|].
  split; vm_compute; reflexivity.
Qed.

(* ------------------------------------------------------------------ *)
(** ** One tick of the engine *)



















(* ================================================================== *)
(** * Further properties of the quad-tree and the engine *)

(* ------------------------------------------------------------------ *)
(** ** [insert] returns *)

Lemma insert_fuel_mono c :
  forall fuel t res, insert fuel t c = Some res ->
  forall more, (fuel <= more)%nat -> insert more t c = Some res.
Proof.
  induction fuel as [|fuel IH]; intros t res H more Hle; [discriminate|].
  destruct more as [|more]; [lia|]. apply le_S_n in Hle.
  rewrite insert_S in H. rewrite insert_S.
  destruct (negb (contains (boundary t) c)); [exact H|].
  destruct (length (objects t) <? capacity t)%nat; [exact H|].
  destruct (if negb (divided t) then subdivide t else t)
    as [|b cap o d ne nw se sw]; [exact H|].
  destruct (insert fuel ne c) as [[r1 ne']|] eqn:E1; [|discriminate].
  rewrite (IH _ _ E1 more Hle). destruct r1; [exact H|].
  destruct (insert fuel nw c) as [[r2 nw']|] eqn:E2; [|discriminate].
  rewrite (IH _ _ E2 more Hle). destruct r2; [exact H|].
  destruct (insert fuel se c) as [[r3 se']|] eqn:E3; [|discriminate].
  rewrite (IH _ _ E3 more Hle). destruct r3; [exact H|].
  destruct (insert fuel sw c) as [[r4 sw']|] eqn:E4; [|discriminate].
  rewrite (IH _ _ E4 more Hle). exact H.
Qed.

(** X1. With a capacity of at least 1, [insert] returns in every state
    reached by inserts and clears: a call depth of two more than the depth
    of the tree is enough, and allowing more depth gives the same result. *)
Theorem X1_insert_returns (B : Rectangle) (cap : nat) (t : QuadTree)
  (c : Circle) :
  (0 < cap)%nat ->
  reachable B cap t ->
  exists r t',
    forall fuel, (depth t + 2 <= fuel)%nat -> insert fuel t c = Some (r, t').
Proof.
  intros Hcap Hreach.
  destruct (reachable_insert_returns B cap t c Hcap Hreach) as (r & t' & E).
  exists r, t'. intros fuel Hfuel. eapply insert_fuel_mono; eauto.
Qed.

Lemma X1_witness :
  exists r t',
    forall fuel, (depth sample_tree2 + 2 <= fuel)%nat ->
                 insert fuel sample_tree2 (circle 50 50 5) = Some (r, t').
Proof.
  apply (X1_insert_returns sample_bounds 1).
  - lia.
  - apply (reach_insert _ _ sample_tree1 3 (circle 80 20 5) true); [|reflexivity].
    apply (reach_insert _ _ (new_QuadTree sample_bounds 1) 3 (circle 10 10 5) true);
      [|reflexivity].
    apply reach_new.
Defined.

Lemma all_objects_nodes t : all_objects t = flat_map objects (nodes t).
Proof.
  induction t as [b c o|b c o d ne IHne nw IHnw se IHse sw IHsw].
  - cbn. rewrite app_nil_r. reflexivity.
  - destruct d; cbn [all_objects nodes flat_map objects].
    + rewrite !flat_map_app, IHne, IHnw, IHse, IHsw. reflexivity.
    + cbn. rewrite app_nil_r. reflexivity.
Qed.

Lemma capacity_zero_empty B t : reachable B 0 t -> all_objects t = [].
Proof.
  intros Hreach. apply reachable_within_capacity in Hreach.
  rewrite all_objects_nodes. unfold within_capacity in Hreach.
  induction (nodes t) as [|n ns IH]; [reflexivity|].
  inversion Hreach as [|? ? [_ Hn] Hns]; subst. cbn [flat_map].
  rewrite IH by assumption.
  destruct (objects n); [reflexivity|cbn in Hn; lia].
Qed.

(** X2. A quad-tree of capacity 0 stores nothing: in every state reached by
    inserts and clears no circle is stored, and every [insert] that
    returns returns false. *)
Theorem X2_capacity_zero_stores_nothing (B : Rectangle) (t : QuadTree) :
  reachable B 0 t ->
  all_objects t = [] /\
  forall fuel c r t', insert fuel t c = Some (r, t') -> r = false.
Proof.
  intros Hreach. split; [eapply capacity_zero_empty, Hreach|].
  intros fuel c r t' H.
  assert (Hreach' : reachable B 0 t') by (eapply reach_insert; eauto).
  apply capacity_zero_empty in Hreach'.
  destruct (insert_effect _ _ _ _ _ H) as (_ & Hperm & _).
  destruct r; [|reflexivity].
  rewrite Hreach' in Hperm. apply Permutation_nil in Hperm. discriminate.
Qed.

Lemma X2_witness :
  all_objects (new_QuadTree sample_bounds 0) = [] /\
  forall fuel c r t',
    insert fuel (new_QuadTree sample_bounds 0) c = Some (r, t') -> r = false.
Proof.
  apply (X2_capacity_zero_stores_nothing sample_bounds). apply reach_new.
Defined.

(** A point that lies in a region lies in one of its quadrants. *)
(* ------------------------------------------------------------------ *)
(** ** What [insert] stores *)

Lemma insert_capacity c fuel t r t' :
  insert fuel t c = Some (r, t') -> capacity t' = capacity t.
Proof.
  revert fuel t r t'.
  apply (insert_induction c (fun t _ t' => capacity t' = capacity t)).
  - reflexivity.
  - intros t _ _. destruct t; reflexivity.
  - intros t b cap o ne nw se sw r ne' nw' se' sw' _ _ Hsub _.
    apply subdivided_cases in Hsub. destruct Hsub as (_ & -> & _). reflexivity.
Qed.

(** X4. An [insert] that returns true adds exactly the circle to the
    circles stored in the tree; one that returns false stores nothing.
    Either way the region and the capacity of the node stay as they were
    and no stored circle is lost or duplicated. *)
Theorem X4_insert_stores_exactly (fuel : nat) (t : QuadTree) (c : Circle)
  (r : bool) (t' : QuadTree) :
  insert fuel t c = Some (r, t') ->
  boundary t' = boundary t /\
  capacity t' = capacity t /\
  Permutation (all_objects t') (if r then c :: all_objects t else all_objects t).
Proof.
  intros H. destruct (insert_effect _ _ _ _ _ H) as (Hb & Hperm & _).
  split; [exact Hb|]. split; [|exact Hperm].
  eapply insert_capacity, H.
Qed.

Lemma X4_witness :
  boundary sample_tree2 = boundary sample_tree1 /\
  capacity sample_tree2 = capacity sample_tree1 /\
  Permutation (all_objects sample_tree2)
              (circle 80 20 5 :: all_objects sample_tree1).
Proof.
  apply (X4_insert_stores_exactly 3 sample_tree1 (circle 80 20 5) true).
  reflexivity.
Defined.

Lemma not_number_nan a : ~ is_number a -> to_number a = PrimFloat.nan.
Proof.
  destruct a as [|f]; cbn [is_number to_number]; [reflexivity|].
  intros H. apply is_nan_eq. destruct (PrimFloat.is_nan f); [reflexivity|].
  exfalso. apply H. reflexivity.
Qed.

Lemma is_number_dec a : is_number a \/ ~ is_number a.
Proof.
  destruct a as [|f]; cbn [is_number]; [right; tauto|].
  destruct (PrimFloat.is_nan f); [right; discriminate|left; reflexivity].
Qed.

Lemma contains_finite b c : contains b c = true -> numeric_circle c.
Proof.
  intros Hc. unfold numeric_circle.
  unfold contains, num_ge, num_le, add, sub, lift2 in Hc.
  cbn [to_number] in Hc.
  apply andb_true_iff in Hc. destruct Hc as [Hc H4].
  apply andb_true_iff in Hc. destruct Hc as [Hc H3].
  apply andb_true_iff in Hc. destruct Hc as [H1 H2].
  split; [|split].
  - destruct (is_number_dec (x c)) as [H|H]; [exact H|exfalso].
    rewrite (not_number_nan _ H), sub_nan_l, leb_nan_r in H1. discriminate.
  - destruct (is_number_dec (y c)) as [H|H]; [exact H|exfalso].
    rewrite (not_number_nan _ H), sub_nan_l, leb_nan_r in H3. discriminate.
  - destruct (is_number_dec (radius c)) as [H|H]; [exact H|exfalso].
    rewrite (not_number_nan _ H), sub_nan_r, leb_nan_r in H1. discriminate.
Qed.

(** X5. A circle with a property that is absent or [NaN] is turned down at
    once by every node, whatever its state: [insert] returns false and
    leaves the node as it was. *)
Theorem X5_malformed_circle_rejected (fuel : nat) (t : QuadTree) (c : Circle) :
  ~ numeric_circle c ->
  insert (S fuel) t c = Some (false, t).
Proof.
  intros Hn. rewrite insert_S.
  destruct (contains (boundary t) c) eqn:Hc; [|reflexivity].
  exfalso. apply Hn. eapply contains_finite, Hc.
Qed.

Lemma X5_witness :
  insert 1 sample_tree3 (mkCircle Undef (Num 20) (Num 5)) = Some (false, sample_tree3).
Proof.
  apply X5_malformed_circle_rejected. unfold numeric_circle. cbn. tauto.
Defined.



(* ------------------------------------------------------------------ *)
(** ** What [retrieve] returns *)

(** X7. [retrieve] only appends to the accumulator it is given: what was
    in [found] stays in front, in order, followed by what the same query
    returns from an empty accumulator. *)
Theorem X7_retrieve_appends (t : QuadTree) (q : Circle) (found : list Circle) :
  retrieve t q found = found ++ retrieve t q [].
Proof.
  apply retrieve_app.
Qed.

Lemma Permutation_split_app {A} (a b r s u v : list A) :
  Permutation a (r ++ u) -> Permutation b (s ++ v) ->
  Permutation (a ++ b) ((r ++ s) ++ (u ++ v)).
Proof.
  intros Ha Hb. rewrite Ha, Hb. rewrite <- !app_assoc.
  apply Permutation_app_head. rewrite !app_assoc.
  apply Permutation_app_tail. apply Permutation_app_comm.
Qed.

Lemma retrieve_partition t q :
  exists pruned, Permutation (all_objects t) (retrieve t q [] ++ pruned).
Proof.
  induction t as [b c o|b c o d ne IHne nw IHnw se IHse sw IHsw];
    rewrite retrieve_unfold; cbn [boundary objects all_objects].
  - destruct (intersects b q).
    + exists []. rewrite !app_nil_r. reflexivity.
    + exists o. reflexivity.
  - destruct d.
    + destruct IHne as [p1 H1], IHnw as [p2 H2], IHse as [p3 H3], IHsw as [p4 H4].
      destruct (intersects b q).
      * exists (p1 ++ p2 ++ p3 ++ p4). rewrite <- app_assoc.
        apply Permutation_app_head.
        repeat (apply Permutation_split_app; [assumption|]). assumption.
      * exists (o ++ all_objects ne ++ all_objects nw ++ all_objects se ++
                all_objects sw). reflexivity.
    + destruct (intersects b q).
      * exists []. rewrite !app_nil_r. reflexivity.
      * exists o. reflexivity.
Qed.

(* ------------------------------------------------------------------ *)
(** ** The geometric tests and the narrow phase *)





(** X10. [circleCollision] is symmetric in its two arguments. *)
Theorem X10_circleCollision_symmetric (a b : Circle) :
  circleCollision a b = circleCollision b a.
Proof.
  unfold circleCollision, num_lt, sqrt, add, sub, mul, lift2.
  cbn [to_number].
  rewrite (square_sub_sym (to_number (x a)) (to_number (x b))).
  rewrite (square_sub_sym (to_number (y a)) (to_number (y b))).
  rewrite (float_add_comm (to_number (or_default (radius a) (Num 2)))).
  reflexivity.
Qed.

(** X20. Rounding of the square root never creates a hit, and loses one
    only on the boundary. Where the differences, the squares, their sum
    and the sum of the radii in use do not round: if [circleCollision]
    returns true, the centres are strictly closer than the sum of the
    radii in use; and if they are strictly closer and [circleCollision]
    returns false all the same, the square root is not exact and rounds to
    that sum itself. *)
Theorem X20_narrow_phase_rounding (a b : Circle) :
  collision_inputs_exact a b = true ->
  (circleCollision a b = true -> within_reach a b = true) /\
  (within_reach a b = true -> circleCollision a b = false ->
   root_rounds_to_sum a b = true).
Proof.
  apply collision_sides.
Qed.

Lemma X20_witness :
  (circleCollision grazing_a grazing_b = true ->
   within_reach grazing_a grazing_b = true) /\
  (within_reach grazing_a grazing_b = true ->
   circleCollision grazing_a grazing_b = false ->
   root_rounds_to_sum grazing_a grazing_b = true).
Proof.
  apply X20_narrow_phase_rounding. vm_compute. reflexivity.
Defined.

(* ------------------------------------------------------------------ *)
(** ** What [checkCollisions] reports *)

(** X8. Every candidate [retrieve] returns is a circle stored in the tree,
    and no stored circle is returned more often than it is stored: the
    stored circles are the candidates together with the circles the prune
    left out. *)
Theorem X8_retrieve_returns_stored (t : QuadTree) (q : Circle) :
  exists pruned, Permutation (all_objects t) (retrieve t q [] ++ pruned).
Proof.
  apply retrieve_partition.
Qed.

Lemma retrieve_incl t q : incl (retrieve t q []) (all_objects t).
Proof.
  destruct (retrieve_partition t q) as [pruned Hperm].
  intros s Hs. eapply Permutation_in; [symmetry; exact Hperm|].
  apply in_or_app. left. exact Hs.
Qed.

(** X11. [checkCollisions] never reports a pair it should not: every call
    to the hit callback has a projectile of the game state as first
    argument, a circle stored in the tree as second, and the two pass
    [circleCollision]. *)
Theorem X11_reported_pairs_collide (this : CollisionEngine)
  (gameState : GameState) :
  Forall (fun call =>
            In (fst call) (projectiles gameState) /\
            In (snd call) (all_objects (quadTree this)) /\
            circleCollision (fst call) (snd call) = true)
         (checkCollisions this gameState).
Proof.
  apply Forall_forall. intros [p s] Hin. unfold checkCollisions in Hin.
  destruct (USE_QUADTREE this); cbn [negb] in Hin; [|contradiction].
  apply in_flat_map in Hin. destruct Hin as (p' & Hp' & Hin).
  apply in_map_iff in Hin. destruct Hin as (s' & E & Hs').
  injection E as <- <-. apply filter_In in Hs'. destruct Hs' as [Hs' Hcc].
  cbn [fst snd]. repeat split; auto.
  eapply retrieve_incl, Hs'.
Qed.







(* ------------------------------------------------------------------ *)
(** ** Nothing survives from one tick to the next *)

Lemma live_clear t : live (clear t) = Leaf (boundary t) (capacity t) [].
Proof.
  destruct t as [|? ? ? [|] ? ? ? ?]; reflexivity.
Qed.

Lemma live_fields t :
  boundary (live t) = boundary t /\ capacity (live t) = capacity t /\
  objects (live t) = objects t /\ divided (live t) = divided t.
Proof.
  destruct t as [|? ? ? [|] ? ? ? ?]; cbn; auto.
Qed.

Lemma live_push c t : live (push c t) = push c (live t).
Proof.
  destruct t as [|? ? ? [|] ? ? ? ?]; reflexivity.
Qed.

(** [insert] on the node as the methods see it does what [insert] does on
    the node itself. *)
Lemma insert_live c :
  forall fuel t,
  insert fuel (live t) c =
  match insert fuel t c with
  | Some (r, t') => Some (r, live t')
  | None => None
  end.
Proof.
  induction fuel as [|fuel IH]; intros t; [reflexivity|].
  rewrite !insert_S.
  destruct (live_fields t) as (Hb & Hc & Ho & Hd). rewrite Hb, Hc, Ho, Hd.
  destruct (contains (boundary t) c); cbn [negb]; [|reflexivity].
  destruct (length (objects t) <? capacity t)%nat;
    [rewrite live_push; reflexivity|].
  assert (Hkids : forall b0 cap0 o0 ne nw se sw,
    match insert fuel (live ne) c with
    | None => None
    | Some (true, ne') =>
        Some (true, Quad b0 cap0 o0 true ne' (live nw) (live se) (live sw))
    | Some (false, ne') =>
      match insert fuel (live nw) c with
      | None => None
      | Some (true, nw') =>
          Some (true, Quad b0 cap0 o0 true ne' nw' (live se) (live sw))
      | Some (false, nw') =>
        match insert fuel (live se) c with
        | None => None
        | Some (true, se') => Some (true, Quad b0 cap0 o0 true ne' nw' se' (live sw))
        | Some (false, se') =>
          match insert fuel (live sw) c with
          | None => None
          | Some (r, sw') => Some (r, Quad b0 cap0 o0 true ne' nw' se' sw')
          end
        end
      end
    end =
    match
      match insert fuel ne c with
      | None => None
      | Some (true, ne') => Some (true, Quad b0 cap0 o0 true ne' nw se sw)
      | Some (false, ne') =>
        match insert fuel nw c with
        | None => None
        | Some (true, nw') => Some (true, Quad b0 cap0 o0 true ne' nw' se sw)
        | Some (false, nw') =>
          match insert fuel se c with
          | None => None
          | Some (true, se') => Some (true, Quad b0 cap0 o0 true ne' nw' se' sw)
          | Some (false, se') =>
            match insert fuel sw c with
            | None => None
            | Some (r, sw') => Some (r, Quad b0 cap0 o0 true ne' nw' se' sw')
            end
          end
        end
      end
    with
    | Some (r, t') => Some (r, live t')
    | None => None
    end).
  { intros b0 cap0 o0 ne nw se sw. rewrite !IH.
    destruct (insert fuel ne c) as [[[|] ne']|]; try reflexivity.
    destruct (insert fuel nw c) as [[[|] nw']|]; try reflexivity.
    destruct (insert fuel se c) as [[[|] se']|]; try reflexivity.
    destruct (insert fuel sw c) as [[[|] sw']|]; reflexivity. }
  destruct t as [b0 cap0 o0|b0 cap0 o0 [|] ne nw se sw];
    cbn [live divided negb]; unfold subdivide;
    cbn [boundary capacity objects].
  - unfold new_QuadTree.
    exact (Hkids _ _ _ (Leaf _ _ []) (Leaf _ _ []) (Leaf _ _ []) (Leaf _ _ [])).
  - apply Hkids.
  - unfold new_QuadTree.
    exact (Hkids _ _ _ (Leaf _ _ []) (Leaf _ _ []) (Leaf _ _ []) (Leaf _ _ [])).
Qed.

Lemma insert_each_live fuel cs :
  forall t,
  insert_each fuel (live t) cs =
  match insert_each fuel t cs with
  | Some (rs, t') => Some (rs, live t')
  | None => None
  end.
Proof.
  induction cs as [|c cs IH]; intros t; cbn [insert_each]; [reflexivity|].
  rewrite insert_live.
  destruct (insert fuel t c) as [[r t1]|]; [|reflexivity].
  rewrite IH. destruct (insert_each fuel t1 cs) as [[rs t2]|]; reflexivity.
Qed.

Lemma retrieve_live t q : forall found,
  retrieve (live t) q found = retrieve t q found.
Proof.
  induction t as [b c o|b c o d ne IHne nw IHnw se IHse sw IHsw]; intros found.
  - reflexivity.
  - destruct d; cbn [live retrieve]; [|reflexivity].
    destruct (intersects b q); cbn [negb]; [|reflexivity].
    rewrite IHne, IHnw, IHse, IHsw. reflexivity.
Qed.

Lemma all_objects_live t : all_objects (live t) = all_objects t.
Proof.
  induction t as [b c o|b c o d ne IHne nw IHnw se IHse sw IHsw].
  - reflexivity.
  - destruct d; cbn [live all_objects]; [|reflexivity].
    rewrite IHne, IHnw, IHse, IHsw. reflexivity.
Qed.

Lemma insert_each_same_view fuel cs ta tb rs ta' :
  live ta = live tb ->
  insert_each fuel ta cs = Some (rs, ta') ->
  exists tb', insert_each fuel tb cs = Some (rs, tb') /\ live ta' = live tb'.
Proof.
  intros Hlive Ha.
  pose proof (insert_each_live fuel cs ta) as La.
  pose proof (insert_each_live fuel cs tb) as Lb.
  rewrite Ha in La. rewrite Hlive, Lb in La.
  destruct (insert_each fuel tb cs) as [[rs' tb']|]; [|discriminate].
  injection La as -> Hl. exists tb'. split; [reflexivity|]. symmetry. exact Hl.
Qed.

Lemma checkCollisions_same_view e1 e2 gameState :
  USE_QUADTREE e1 = USE_QUADTREE e2 ->
  live (quadTree e1) = live (quadTree e2) ->
  checkCollisions e1 gameState = checkCollisions e2 gameState.
Proof.
  intros Huse Hlive. unfold checkCollisions. rewrite Huse.
  destruct (USE_QUADTREE e2); cbn [negb]; [|reflexivity].
  apply flat_map_ext. intros p.
  rewrite <- (retrieve_live (quadTree e1)), <- (retrieve_live (quadTree e2)).
  rewrite Hlive. reflexivity.
Qed.

(** X13. [update] forgets what the tree held before. Two enabled engines
    with the same region and capacity, whatever their trees hold, cannot
    be told apart after [update] with the same game state: both return (or
    neither does), and then they store the same circles in the same order,
    [retrieve] returns the same list for every query, and
    [checkCollisions] makes the same calls for every game state. *)
Theorem X13_update_forgets_previous_tick (fuel : nat)
  (e1 e2 e1' : CollisionEngine) (gameState : GameState) :
  USE_QUADTREE e1 = true -> USE_QUADTREE e2 = true ->
  boundary (quadTree e1) = boundary (quadTree e2) ->
  capacity (quadTree e1) = capacity (quadTree e2) ->
  update fuel e1 gameState = Some e1' ->
  exists e2',
    update fuel e2 gameState = Some e2' /\
    all_objects (quadTree e1') = all_objects (quadTree e2') /\
    (forall q found,
       retrieve (quadTree e1') q found = retrieve (quadTree e2') q found) /\
    (forall gs, checkCollisions e1' gs = checkCollisions e2' gs).
Proof.
  intros Hu1 Hu2 Hb Hc Hupd.
  unfold update in *. rewrite Hu1 in Hupd. rewrite Hu2. cbn [negb] in *.
  assert (Hlive : live (clear (quadTree e1)) = live (clear (quadTree e2))).
  { rewrite !live_clear, Hb, Hc. reflexivity. }
  destruct (insert_each fuel (clear (quadTree e1))
              (map player_circle (players gameState)))
    as [[rs1 t1]|] eqn:E1; [|discriminate].
  destruct (insert_each_same_view _ _ _ _ _ _ Hlive E1) as (t1' & E1' & Hl1).
  rewrite E1'.
  destruct (insert_each fuel t1 (map projectile_circle (projectiles gameState)))
    as [[rs2 t2]|] eqn:E2; [|discriminate].
  destruct (insert_each_same_view _ _ _ _ _ _ Hl1 E2) as (t2' & E2' & Hl2).
  rewrite E2'. injection Hupd as <-.
  eexists. split; [reflexivity|]. cbn [quadTree]. split; [|split].
  - rewrite <- (all_objects_live t2), <- (all_objects_live t2'), Hl2.
    reflexivity.
  - intros q found.
    rewrite <- (retrieve_live t2), <- (retrieve_live t2'), Hl2. reflexivity.
  - intros gs. apply checkCollisions_same_view; [reflexivity|exact Hl2].
Qed.

Lemma X13_witness :
  exists e2',
    update 3 (engine_with true scenario_bounds 4) straddling_state = Some e2' /\
    all_objects (quadTree scenario_engine_next) = all_objects (quadTree e2') /\
    (forall q found,
       retrieve (quadTree scenario_engine_next) q found =
       retrieve (quadTree e2') q found) /\
    (forall gs, checkCollisions scenario_engine_next gs = checkCollisions e2' gs).
Proof.
  apply (X13_update_forgets_previous_tick 3 scenario_engine); reflexivity.
Defined.

(* ------------------------------------------------------------------ *)
(** ** Regions, quadrants and the midlines *)

(** A circle whose rounded extent reaches strictly across a rounded
    midline fails the containment test of all four quadrants. *)
Lemma crossing_fits_no_quadrant b c :
  crosses_midline b c = true -> fits_quadrant b c = false.
Proof.
  intros Hx. unfold crosses_midline in Hx. cbv zeta in Hx.
  unfold fits_quadrant, quadrants. cbv zeta. cbn [existsb].
  unfold contains, num_ge. cbn [rect_x rect_y width height].
  unfold num_lt, num_le in *.
  apply orb_true_iff in Hx. destruct Hx as [Hx|Hx];
    apply andb_true_iff in Hx; destruct Hx as [H1 H2];
    apply ltb_not_leb in H1, H2; rewrite ?H1, ?H2;
    rewrite ?andb_false_r, ?andb_false_l, ?orb_false_r; reflexivity.
Qed.

Lemma accepted_fits c fuel t r t' :
  insert fuel t c = Some (r, t') ->
  (r = true -> contains (boundary t) c = true) /\
  ((capacity t <= length (objects t))%nat -> well_divided t -> r = true ->
   fits_quadrant (boundary t) c = true).
Proof.
  revert fuel t r t'.
  apply (insert_induction c (fun t r _ =>
    (r = true -> contains (boundary t) c = true) /\
    ((capacity t <= length (objects t))%nat -> well_divided t -> r = true ->
     fits_quadrant (boundary t) c = true))).
  - intros t _. split; discriminate.
  - intros t Hc Hlen. split; [auto|]. intros Hfull. lia.
  - intros t b cap o ne nw se sw r ne' nw' se' sw' Hc _ Hsub Hoff.
    split; [auto|]. intros _ Hwd ->.
    destruct (children_regions _ _ _ _ _ _ _ _ Hsub Hwd) as (Hq & _).
    unfold fits_quadrant. rewrite <- Hq. cbn [map existsb].
    apply offered_four in Hoff.
    destruct Hoff as [(_ & (C1 & _) & _)
                     |[(_ & _ & (C2 & _) & _)
                     |[(_ & _ & _ & (C3 & _) & _)
                     |[(_ & _ & _ & _ & (C4 & _))
                      |(Hr & _)]]]]; try discriminate.
    + rewrite (C1 eq_refl). reflexivity.
    + rewrite (C2 eq_refl), orb_true_r. reflexivity.
    + rewrite (C3 eq_refl), !orb_true_r. reflexivity.
    + rewrite (C4 eq_refl), !orb_true_r. reflexivity.
Qed.

(** X14. Once the root is full, a circle whose extent, as [contains]
    computes it, reaches strictly across a midline of the root region, as
    [subdivide] computes it, is never stored: every [insert] of it that
    returns returns false, and the stored circles are unchanged. *)
Theorem X14_midline_circle_dropped (B : Rectangle) (cap : nat) (t : QuadTree)
  (fuel : nat) (c : Circle) (r : bool) (t' : QuadTree) :
  reachable B cap t ->
  (cap <= length (objects t))%nat ->
  crosses_midline B c = true ->
  insert fuel t c = Some (r, t') ->
  r = false /\ Permutation (all_objects t') (all_objects t).
Proof.
  intros Hreach Hfull Hx Hins.
  assert (Hr : r = false).
  { destruct r; [|reflexivity].
    destruct (accepted_fits _ _ _ _ _ Hins) as [_ Hfit].
    rewrite (root_capacity _ _ _ Hreach), (root_boundary _ _ _ Hreach) in Hfit.
    rewrite (crossing_fits_no_quadrant _ _ Hx) in Hfit.
    symmetry. apply Hfit; auto. eapply reachable_well_divided, Hreach. }
  split; [exact Hr|].
  destruct (insert_effect _ _ _ _ _ Hins) as (_ & Hperm & _).
  rewrite Hr in Hperm. exact Hperm.
Qed.

Lemma X14_witness :
  false = false /\ Permutation (all_objects sample_tree3) (all_objects sample_tree2).
Proof.
  apply (X14_midline_circle_dropped sample_bounds 1 sample_tree2 3 (circle 50 50 5)).
  - apply (reach_insert _ _ sample_tree1 3 (circle 80 20 5) true); [|reflexivity].
    apply (reach_insert _ _ (new_QuadTree sample_bounds 1) 3 (circle 10 10 5) true);
      [|reflexivity].
    apply reach_new.
  - cbn. lia.
  - reflexivity.
  - reflexivity.
Defined.




(** X17. Over a root region B of non-negative size, and where the
    halvings and sums of [subdivide] do not round at the subdivided nodes,
    the region of every node in use denotes a rectangle of non-negative
    size inside B, and the children of every subdivided node own its four
    quadrants, in the order NE, NW, SE, SW. *)
Theorem X17_regions_partition_the_world (B : Rectangle) (cap : nat)
  (t : QuadTree) (B' : QRectangle) :
  proper_rectangle B ->
  rectangle_value B = Some B' ->
  reachable B cap t ->
  Forall (fun n => divided n = true -> subdivide_unrounded (boundary n) = true)
         (nodes t) ->
  regions_inside B' t /\ well_divided t.
Proof.
  intros HB HB' Hreach Hexact.
  split; [|eapply reachable_well_divided, Hreach].
  apply regions_inside_tree.
  - eapply reachable_well_divided, Hreach.
  - rewrite (root_boundary _ _ _ Hreach). exists B'. split; [exact HB'|].
    destruct HB as (_ & _ & Hw & Hh). unfold nonneg in Hw, Hh.
    apply rectangle_value_inv in HB'. destruct HB' as (_ & _ & Vw & Vh).
    rewrite Vw in Hw. rewrite Vh in Hh.
    apply ideal_sub_rectangle_refl; assumption.
  - exact Hexact.
Qed.

Lemma X17_witness :
  regions_inside (mkQRectangle 0 0 100 100) sample_tree3 /\
  well_divided sample_tree3.
Proof.
  apply (X17_regions_partition_the_world sample_bounds 1).
  - unfold proper_rectangle. vm_compute. repeat split; discriminate.
  - reflexivity.
  - eapply inserted_reachable, sample_inserted.
  - unfold sample_tree3. cbn [nodes app].
    repeat (apply Forall_cons; [intros _; vm_compute; reflexivity|]).
    apply Forall_nil.
Defined.

(* ------------------------------------------------------------------ *)
(** ** Projectiles are indexed too *)





(* ------------------------------------------------------------------ *)
(** ** [update] returns *)

Lemma insert_within_capacity cap fuel t c r t' :
  insert fuel t c = Some (r, t') -> within_capacity cap t -> within_capacity cap t'.
Proof.
  intros H. unfold within_capacity.
  apply (insert_nodes (fun _ c0 o => c0 = cap /\ (length o <= cap)%nat))
    with (fuel := fuel) (c := c) (r := r); try exact H.
  - intros b0 c0 o c1 [-> Hl] _ Hlt. split; [reflexivity|].
    rewrite length_app. cbn. lia.
  - intros b0 c0 o q [-> _] _. cbn. split; [reflexivity|lia].
Qed.

Lemma push_depth c t : depth (push c t) = depth t.
Proof.
  destruct t as [|? ? ? [|] ? ? ? ?]; reflexivity.
Qed.

Lemma insert_depth c fuel t r t' :
  insert fuel t c = Some (r, t') ->
  (Forall (fun n => (0 < capacity n)%nat) (nodes t) ->
   (depth t' <= S (depth t))%nat) /\
  (has_room t -> depth t' = depth t).
Proof.
  revert fuel t r t'.
  apply (insert_induction c (fun t _ t' =>
    (Forall (fun n => (0 < capacity n)%nat) (nodes t) ->
     (depth t' <= S (depth t))%nat) /\
    (has_room t -> depth t' = depth t))).
  - intros t _. split; auto.
  - intros t _ _. rewrite push_depth. split; auto.
  - intros t b cap o ne nw se sw r ne' nw' se' sw' _ Hfull Hsub Hoff.
    split; [|unfold has_room; lia].
    intros Hpos. apply subdivided_cases in Hsub.
    destruct Hsub as (-> & -> & -> & [Ht|[Hd Hk]]).
    + rewrite Ht in Hpos. apply nodes_Quad in Hpos.
      destruct Hpos as (_ & N1 & N2 & N3 & N4).
      assert (D : depth t =
                  S (Nat.max (Nat.max (depth ne) (depth nw))
                             (Nat.max (depth se) (depth sw))))
        by (rewrite Ht; reflexivity).
      rewrite D. cbn [depth].
      apply offered_four in Hoff.
      destruct Hoff as [(_ & (P1 & _) & -> & -> & ->)
                       |[(_ & (P1 & _) & (P2 & _) & -> & ->)
                       |[(_ & (P1 & _) & (P2 & _) & (P3 & _) & ->)
                       |[(_ & (P1 & _) & (P2 & _) & (P3 & _) & (P4 & _))
                        |(_ & (P1 & _) & (P2 & _) & (P3 & _) & (P4 & _))]]]];
        repeat match goal with
               | P : Forall _ (nodes ?k) -> _, N : Forall _ (nodes ?k) |- _ =>
                   specialize (P N)
               end; lia.
    + apply nodes_root in Hpos.
      assert (D0 : depth t = 0%nat)
        by (destruct t as [|? ? ? [|] ? ? ? ?]; try discriminate; reflexivity).
      rewrite D0. injection Hk as -> -> -> ->. cbn [depth].
      assert (Hr : forall q, has_room (new_QuadTree q (capacity t)))
        by (intros q; unfold has_room; cbn; exact Hpos).
      apply offered_four in Hoff.
      destruct Hoff as [(_ & (_ & P1) & -> & -> & ->)
                       |[(_ & (_ & P1) & (_ & P2) & -> & ->)
                       |[(_ & (_ & P1) & (_ & P2) & (_ & P3) & ->)
                       |[(_ & (_ & P1) & (_ & P2) & (_ & P3) & (_ & P4))
                        |(_ & (_ & P1) & (_ & P2) & (_ & P3) & (_ & P4))]]]];
        rewrite ?(P1 (Hr _)), ?(P2 (Hr _)), ?(P3 (Hr _)), ?(P4 (Hr _));
        cbn [depth new_QuadTree]; lia.
Qed.

Lemma insert_each_returns cap fuel cs :
  (0 < cap)%nat ->
  forall t,
  within_capacity cap t ->
  (depth t + length cs + 2 <= fuel)%nat ->
  exists rs t', insert_each fuel t cs = Some (rs, t') /\
                within_capacity cap t' /\
                (depth t' <= depth t + length cs)%nat.
Proof.
  intros Hcap.
  induction cs as [|c cs IH]; intros t Hwc Hfuel; cbn [insert_each length] in *.
  - exists [], t. repeat split; auto. lia.
  - assert (Hpos : Forall (fun n => (0 < capacity n)%nat) (nodes t)).
    { eapply Forall_impl; [|exact Hwc]. intros n [-> _]. exact Hcap. }
    destruct (insert_returns c t Hpos fuel) as (r & t1 & E1); [lia|].
    rewrite E1.
    pose proof (insert_within_capacity _ _ _ _ _ _ E1 Hwc) as Hwc1.
    destruct (insert_depth _ _ _ _ _ E1) as [Hd _]. specialize (Hd Hpos).
    destruct (IH t1 Hwc1) as (rs & t2 & E2 & Hwc2 & Hd2); [lia|].
    rewrite E2. exists (r :: rs), t2. repeat split; auto. lia.
Qed.

(** X19. With a capacity of at least 1, [update] returns whatever the tree
    held before: no [insert] needs a call depth above the number of
    players and projectiles plus two, and the tree it leaves is no deeper
    than that number. *)
Theorem X19_update_returns (this : CollisionEngine) (gameState : GameState)
  (fuel : nat) :
  (0 < capacity (quadTree this))%nat ->
  (length (players gameState) + length (projectiles gameState) + 2 <= fuel)%nat ->
  exists this',
    update fuel this gameState = Some this' /\
    (USE_QUADTREE this = true ->
     (depth (quadTree this')
      <= length (players gameState) + length (projectiles gameState))%nat).
Proof.
  intros Hcap Hfuel. unfold update.
  destruct (USE_QUADTREE this); cbn [negb];
    [|exists this; split; [reflexivity|discriminate]].
  assert (Hwc : within_capacity (capacity (quadTree this)) (clear (quadTree this))).
  { unfold within_capacity. apply nodes_clear.
    destruct (quadTree this) as [|? ? ? [|] ? ? ? ?]; cbn; split; auto; lia. }
  assert (Hd0 : depth (clear (quadTree this)) = 0%nat)
    by (destruct (quadTree this) as [|? ? ? [|] ? ? ? ?]; reflexivity).
  destruct (insert_each_returns _ fuel (map player_circle (players gameState))
              Hcap _ Hwc) as (rs1 & t1 & E1 & Hwc1 & Hd1);
    [rewrite length_map; lia|].
  rewrite length_map in Hd1. rewrite E1.
  destruct (insert_each_returns _ fuel
              (map projectile_circle (projectiles gameState)) Hcap _ Hwc1)
    as (rs2 & t2 & E2 & _ & Hd2); [rewrite length_map; lia|].
  rewrite length_map in Hd2. rewrite E2.
  eexists. split; [reflexivity|]. intros _. cbn [quadTree]. lia.
Qed.

Lemma X19_witness :
  exists this',
    update 8 scenario_engine scenario_state = Some this' /\
    (USE_QUADTREE scenario_engine = true ->
     (depth (quadTree this')
      <= length (players scenario_state) + length (projectiles scenario_state))%nat).
Proof.
  apply X19_update_returns; cbn; lia.
Defined.
